(** * black-hole-vis: light rays around a Schwarzschild black hole

    A shallow embedding of the simulation (the geodesic version of
    main.cpp: the constants, [BlackHole], [LightRay], [Simulation]) and the
    properties its specification states about it.  Line numbers in the
    comments are those of that file.

    The program computes in C++ [double] and [float].  The embedding is
    written once, over a carrier [F] with the arithmetic the program uses
    ([Arith]), and read at two carriers:

    - [Binary64]: IEEE-754 binary64 ([PrimFloat.float]), with
      [static_cast<float>] and the [f] literal suffix as rounding to
      binary32.  This is the program as it runs.
    - [Exact]: the real numbers, with no rounding.  This is the reading in
      which the specification writes its formulas.

    The functions of <cmath> ([cos], [sin], [atan2], [hypot]) and raymath's
    [Vector2Normalize] are not part of the repository; they are the
    interface [External], and every general theorem holds for all of its
    implementations. *)

From Stdlib Require Import ZArith List Bool Lia Permutation.
From Stdlib Require Import Floats.
From Stdlib Require Import Reals Lra.
From Stdlib Require Import QArith Qabs.
From Stdlib Require String.
Import ListNotations.
Close Scope Q_scope.
Close Scope R_scope.

(** ** Numbers *)

(** raylib's [Vector2]: two [float] members. *)
Record Vector2 (F : Type) : Type := vec2 { x : F; y : F }.
Arguments vec2 {F} _ _.
Arguments x {F} _.
Arguments y {F} _.

(** The arithmetic of the program.  [dec m e] is the literal [m·10^e] read
    as a [double]; [to_float] is the conversion to [float] (a
    [static_cast<float>], the [f] suffix, or an implicit narrowing).  A
    [float] is carried by its value in [F]: the promotion of a [float] to
    [double] is exact and is not written.  [sqrt] is there for raymath's
    [sqrtf]; the program itself takes no square root. *)
Class Arith (F : Type) : Type := {
  dec : Z -> Z -> F;
  to_float : F -> F;
  add : F -> F -> F;
  sub : F -> F -> F;
  mul : F -> F -> F;
  div : F -> F -> F;
  neg : F -> F;
  sqrt : F -> F;
  leb : F -> F -> bool;
  ltb : F -> F -> bool
}.

(** What the program calls and the repository does not define: <cmath> and
    raymath. *)
Class External (F : Type) : Type := {
  cos : F -> F;
  sin : F -> F;
  atan2 : F -> F -> F;
  hypot : F -> F -> F;
  Vector2Normalize : Vector2 F -> Vector2 F
}.

Declare Scope num_scope.
Delimit Scope num_scope with num.
Infix "+" := add : num_scope.
Infix "-" := sub : num_scope.
Infix "*" := mul : num_scope.
Infix "/" := div : num_scope.
Notation "- a" := (neg a) : num_scope.
Infix "<=?" := leb : num_scope.
Infix "<?" := ltb : num_scope.

Section Constants.
Context {F : Type} `{Arith F}.
Local Open Scope num_scope.

(** [const double c = 299792458.0f;] *)
Definition c : F := to_float (dec 299792458 0).
(** [const double G = 6.67430e-11f;] *)
Definition G : F := to_float (dec 667430 (-16)).
(** [const double VIS_SCALE = 6e-9;] *)
Definition VIS_SCALE : F := dec 6 (-9).
(** [const double TIME_MULTIPLIER = 100;] *)
Definition TIME_MULTIPLIER : F := dec 100 0.

(** Arithmetic between two [float] operands is done in [float]. *)
Definition addf (a b : F) : F := to_float (a + b).
Definition mulf (a b : F) : F := to_float (a * b).
Definition divf (a b : F) : F := to_float (a / b).
End Constants.

(** ** [struct BlackHole] *)

Module BlackHole.
Record t (F : Type) : Type := mk {
  pos : Vector2 F;
  mass : F;
  r_s : F
}.
Arguments mk {F} _ _ _.
Arguments pos {F} _.
Arguments mass {F} _.
Arguments r_s {F} _.

Section Def.
Context {F : Type} `{Arith F}.
Local Open Scope num_scope.

(** [BlackHole::BlackHole(Vector2 position, double m)] *)
Definition new (position : Vector2 F) (m : F) : t F :=
  {| pos := position;
     mass := m;
     r_s := (dec 2 0 * G * m) / (c * c) |}.
End Def.
End BlackHole.

(** ** [struct LightRay] *)

Module LightRay.
Record t (F : Type) : Type := mk {
  pos : Vector2 F;
  dir : Vector2 F;
  r : F;
  phi : F;
  dr : F;
  dphi : F;
  path : list (Vector2 F)
}.
Arguments mk {F} _ _ _ _ _ _ _.
Arguments pos {F} _.
Arguments dir {F} _.
Arguments r {F} _.
Arguments phi {F} _.
Arguments dr {F} _.
Arguments dphi {F} _.
Arguments path {F} _.

(** The local variables [r], [phi], [dr_dt], [dphi_dt] of [Update]
    ([r] and [phi] are the members; the two rates are locals). *)
Record polar (F : Type) : Type := mkpolar {
  p_r : F;
  p_phi : F;
  dr_dt : F;
  dphi_dt : F
}.
Arguments mkpolar {F} _ _ _ _.
Arguments p_r {F} _.
Arguments p_phi {F} _.
Arguments dr_dt {F} _.
Arguments dphi_dt {F} _.

Section Def.
Context {F : Type} `{Arith F} `{External F}.
Local Open Scope num_scope.

(** [LightRay::LightRay(Vector2 position, Vector2 direction)] *)
Definition new (position direction : Vector2 F) : t F :=
  {| pos := position;
     dir := direction;
     r := hypot (x position) (y position) / VIS_SCALE;
     phi := atan2 (y position) (x position);
     dr := dec 0 0;
     dphi := dec 0 0;
     path := [position] |}.

(** Lines 48-49: [r] and [phi] are assigned from [pos]. *)
Definition radius (l : t F) : F := hypot (x (pos l)) (y (pos l)) / VIS_SCALE.
Definition angle (l : t F) : F := atan2 (y (pos l)) (x (pos l)).

Definition rederive (l : t F) : t F :=
  {| pos := pos l; dir := dir l;
     r := radius l; phi := angle l;
     dr := dr l; dphi := dphi l;
     path := path l |}.

(** The two guards of lines 52-59, as one test: the update goes on. *)
Definition live (r_s : F) (l : t F) : bool :=
  negb (radius l <=? dec 0 0) && negb (radius l <? r_s).

(** Lines 63-64 and 117-118: the polar basis at an angle. *)
Definition r_hat (a : F) : Vector2 F :=
  vec2 (to_float (cos a)) (to_float (sin a)).
Definition phi_hat (a : F) : Vector2 F :=
  vec2 (to_float (- sin a)) (to_float (cos a)).

(** Lines 67-68: [v_r] and [v_phi]. *)
Definition v_r (l : t F) : F :=
  addf (mulf (x (dir l)) (x (r_hat (angle l))))
       (mulf (y (dir l)) (y (r_hat (angle l)))) * c.
Definition v_phi (l : t F) : F :=
  addf (mulf (x (dir l)) (x (phi_hat (angle l))))
       (mulf (y (dir l)) (y (phi_hat (angle l)))) * c.

(** Lines 48-49 and 71-72: the polar state the integration starts from. *)
Definition entering (l : t F) : polar F :=
  {| p_r := radius l;
     p_phi := angle l;
     dr_dt := v_r l;
     dphi_dt := v_phi l / radius l |}.

(** Lines 85-110: one step of the integration. *)
Definition integrate (dt r_s : F) (p : polar F) : polar F :=
  let r := p_r p in
  let L := r * r * dphi_dt p / c in
  let r2 := r * r in
  let r3 := r2 * r in
  let r4 := r3 * r in
  let c2 := c * c in
  let d2r_dt2 :=
    - (r_s * c2) / (dec 2 0 * r2) + (L * L * c2) / r3
    - (dec 3 0 * r_s * L * L * c2) / (dec 2 0 * r4) in
  let d2phi_dt2 := (- dec 2 0 / r) * dr_dt p * dphi_dt p in
  let dr_dt' := dr_dt p + d2r_dt2 * dt in
  let dphi_dt' := dphi_dt p + d2phi_dt2 * dt in
  {| p_r := r + dr_dt' * dt;
     p_phi := p_phi p + dphi_dt' * dt;
     dr_dt := dr_dt';
     dphi_dt := dphi_dt' |}.

(** Lines 113-114: back to Cartesian coordinates. *)
Definition cartesian (p : polar F) : Vector2 F :=
  vec2 (to_float (p_r p * cos (p_phi p) * VIS_SCALE))
       (to_float (p_r p * sin (p_phi p) * VIS_SCALE)).

(** Lines 117-123: [velocity_cart]. *)
Definition velocity_cart (p : polar F) : Vector2 F :=
  let new_r_hat := r_hat (p_phi p) in
  let new_phi_hat := phi_hat (p_phi p) in
  vec2 (to_float (dr_dt p * x new_r_hat + p_r p * dphi_dt p * x new_phi_hat))
       (to_float (dr_dt p * y new_r_hat + p_r p * dphi_dt p * y new_phi_hat)).

(** Lines 113-127: what a step that was not stopped by a guard stores. *)
Definition store (l : t F) (p : polar F) : t F :=
  {| pos := cartesian p;
     dir := Vector2Normalize (velocity_cart p);
     r := p_r p;
     phi := p_phi p;
     dr := dr l;
     dphi := dphi l;
     path := path l ++ [cartesian p] |}.

(** [void LightRay::Update(double dt, double r_s)] *)
Definition Update (dt r_s : F) (l : t F) : t F :=
  let l := rederive l in
  if r l <=? dec 0 0 then l
  else if r l <? r_s then l
  else store l (integrate dt r_s (entering l)).

(** Successive calls of [Update], one per element of [dts]. *)
Definition run (r_s : F) (dts : list F) (l : t F) : t F :=
  fold_left (fun l dt => Update dt r_s l) dts l.

(** Every call of the run passes both guards. *)
Fixpoint all_live (r_s : F) (dts : list F) (l : t F) : bool :=
  match dts with
  | [] => true
  | dt :: rest => live r_s l && all_live r_s rest (Update dt r_s l)
  end.
End Def.
End LightRay.

(** ** [struct Simulation] *)

Module Simulation.
Record t (F : Type) : Type := mk {
  blackHole : BlackHole.t F;
  lightRays : list (LightRay.t F);
  center : Vector2 F
}.
Arguments mk {F} _ _ _.
Arguments blackHole {F} _.
Arguments lightRays {F} _.
Arguments center {F} _.

Section Def.
Context {F : Type} `{Arith F} `{External F}.
Local Open Scope num_scope.

(** [Simulation::Simulation(int width, int height)] *)
Definition new (width height : Z) : t F :=
  let center :=
    vec2 (divf (to_float (dec width 0)) (to_float (dec 2 0)))
         (divf (to_float (dec height 0)) (to_float (dec 2 0))) in
  {| blackHole := BlackHole.new (vec2 (to_float (dec 0 0)) (to_float (dec 0 0)))
                                (dec 854 34);
     lightRays :=
       [LightRay.new (vec2 (- x center) (to_float (dec 28599 (-2))))
                     (vec2 (to_float (dec 1 0)) (to_float (dec 0 0)))];
     center := center |}.

(** The loop of [Simulation::Update]: the rays are visited in the order
    of the vector, each updated in place with the black hole's [r_s]. *)
Fixpoint update_rays (dt r_s : F) (rays : list (LightRay.t F))
  : list (LightRay.t F) :=
  match rays with
  | [] => []
  | lr :: rest => LightRay.Update dt r_s lr :: update_rays dt r_s rest
  end.

(** [void Simulation::Update(double dt)] *)
Definition Update (dt : F) (s : t F) : t F :=
  {| blackHole := blackHole s;
     lightRays := update_rays dt (BlackHole.r_s (blackHole s)) (lightRays s);
     center := center s |}.

(** Successive calls of [Update], one per element of [dts]. *)
Definition steps (dts : list F) (s : t F) : t F :=
  fold_left (fun s dt => Update dt s) dts s.

(** [Simulation::Run] over the frame times [GetFrameTime] returned. *)
Definition Run (frames : list F) (s : t F) : t F :=
  steps (map (fun ft => ft * TIME_MULTIPLIER) frames) s.
End Def.

(** The rays picked at the indices [idx], in that order: a permutation of
    the vector when [idx] is one of its indices. *)
Definition reorder {A : Type} (idx : list nat) (l : list A) : list A :=
  flat_map (fun i => match nth_error l i with Some a => [a] | None => [] end) idx.
End Simulation.

(** ** raymath *)

Module Raymath.
Section Def.
Context {F : Type} `{Arith F}.
Local Open Scope num_scope.

(** [Vector2 Vector2Normalize(Vector2 v)] of raymath.h: the vector
    divided by its length, the zero vector when the length is not
    positive.  All of it is [float] arithmetic. *)
Definition Vector2Normalize (v : Vector2 F) : Vector2 F :=
  let length := to_float (sqrt (addf (mulf (x v) (x v)) (mulf (y v) (y v)))) in
  if to_float (dec 0 0) <? length then
    let ilength := divf (to_float (dec 1 0)) length in
    vec2 (mulf (x v) ilength) (mulf (y v) ilength)
  else vec2 (to_float (dec 0 0)) (to_float (dec 0 0)).
End Def.
End Raymath.

(** ** The program in IEEE-754 binary64 *)

(** [double] is binary64.  A [float] is a double that binary32 holds, and
    an operation on two [float]s is the double operation rounded to
    binary32 ([addf], [mulf], [divf]): binary64 carries more than twice the
    precision of binary32, so rounding twice gives the binary32 result. *)
Module Binary64.
(** Rounding to binary32 (24 bits of precision, exponents below 128), to
    nearest, ties to even. *)
Definition round32 (s : spec_float) : spec_float :=
  match s with
  | S754_finite sg m e => binary_round 24 128 sg m e
  | _ => s
  end.

Definition to_float32 (d : float) : float := SF2Prim (round32 (Prim2SF d)).

(** An integer as a [double], rounded to nearest. *)
Definition of_Z (n : Z) : float := SF2Prim (binary_normalize prec emax n 0 false).

(** The decimal literal [m·10^e] as a [double].  Below [2^53] the two
    integers are doubles, so the quotient is rounded once. *)
Definition dec64 (m e : Z) : float :=
  match e with
  | Zneg p => PrimFloat.div (of_Z m) (of_Z (10 ^ Zpos p))
  | _ => of_Z (m * 10 ^ e)
  end.

#[export] Instance arith : Arith float := {|
  dec := dec64;
  to_float := to_float32;
  add := PrimFloat.add;
  sub := PrimFloat.sub;
  mul := PrimFloat.mul;
  div := PrimFloat.div;
  neg := PrimFloat.opp;
  sqrt := PrimFloat.sqrt;
  leb := PrimFloat.leb;
  ltb := PrimFloat.ltb
|}.
End Binary64.

(** <cmath> on the positive x axis.  Annex F of the C standard fixes
    [cos(±0) = 1], [sin(±0) = ±0], [atan2(±0, x) = ±0] for [x > 0] and for
    [x = +0], and [hypot(x, ±0) = fabs(x)], so on these arguments every
    conforming library returns what is written here.  Off the axis the functions
    return NaN: a run that leaves the axis is visibly outside what this
    instance describes.  It serves the concrete runs below; no general
    theorem depends on it. *)
Module AxisLibm.
Import Binary64.
Local Open Scope float_scope.

Definition cos_axis (a : float) : float := if a =? 0 then 1 else nan.
Definition sin_axis (a : float) : float := if a =? 0 then a else nan.
Definition atan2_axis (b a : float) : float :=
  if (b =? 0) && (0 <=? a) && negb (get_sign a) then b else nan.
Definition hypot_axis (a b : float) : float :=
  if b =? 0 then abs a else if a =? 0 then abs b else nan.

#[export] Instance external : External float := {|
  cos := cos_axis;
  sin := sin_axis;
  atan2 := atan2_axis;
  hypot := hypot_axis;
  Vector2Normalize := Raymath.Vector2Normalize
|}.
End AxisLibm.

(** ** The program in exact arithmetic *)

Module Exact.
Local Open Scope R_scope.

Definition decR (m e : Z) : R := IZR m * powerRZ 10 e.
Definition lebR (a b : R) : bool := if Rle_dec a b then true else false.
Definition ltbR (a b : R) : bool := if Rlt_dec a b then true else false.

#[export] Instance arith : Arith R := {|
  dec := decR;
  to_float := fun a => a;
  add := Rplus;
  sub := Rminus;
  mul := Rmult;
  div := Rdiv;
  neg := Ropp;
  sqrt := R_sqrt.sqrt;
  leb := lebR;
  ltb := ltbR
|}.

(** The angle of the point [(a, b)], in (-PI, PI]. *)
Definition atan2R (b a : R) : R :=
  if Rlt_dec 0 a then atan (b / a)
  else if Rlt_dec a 0 then
    if Rle_dec 0 b then atan (b / a) + PI else atan (b / a) - PI
  else if Rlt_dec 0 b then PI / 2
  else if Rlt_dec b 0 then - PI / 2
  else 0.

#[export] Instance external : External R := {|
  cos := Rtrigo_def.cos;
  sin := Rtrigo_def.sin;
  atan2 := atan2R;
  hypot := fun a b => R_sqrt.sqrt (a * a + b * b);
  Vector2Normalize := Raymath.Vector2Normalize
|}.
End Exact.

(** ** Quantities the properties speak of *)

Module Measure.
Section Def.
Context {F : Type} `{Arith F} `{External F}.
Local Open Scope num_scope.


End Def.
End Measure.

(** ** The specification's words *)

Module Spec.
Import LightRay.
Local Open Scope R_scope.

(** The speed of light of the specification. *)
Definition c : R := 299792458.

(** The GeodesicIntegrator of the specification, steps 1 and 3 to 7:
    [L], the two accelerations, the rates, then the position from the
    new rates. *)
Definition GeodesicIntegrator (r_s dt : R) (s : polar R) : polar R :=
  let r := p_r s in
  if Rle_dec r 0 then s
  else
    let L := r ^ 2 * dphi_dt s / c in
    let d2r := - (r_s * c ^ 2) / (2 * r ^ 2) + (L ^ 2 * c ^ 2) / r ^ 3
               - (3 * r_s * L ^ 2 * c ^ 2) / (2 * r ^ 4) in
    let d2phi := (- 2 / r) * dr_dt s * dphi_dt s in
    let dr' := dr_dt s + d2r * dt in
    let dphi' := dphi_dt s + d2phi * dt in
    {| p_r := r + dr' * dt;
       p_phi := p_phi s + dphi' * dt;
       dr_dt := dr';
       dphi_dt := dphi' |}.


Section Radius.
Context {F : Type} `{Arith F} `{External F}.
Local Open Scope num_scope.

(** The photon's radius and angle as the specification derives them,
    from the offset to the black hole's position. *)
Definition radius (blackHolePosition : Vector2 F) (l : LightRay.t F) : F :=
  hypot (x (pos l) - x blackHolePosition) (y (pos l) - y blackHolePosition)
  / VIS_SCALE.
Definition angle (blackHolePosition : Vector2 F) (l : LightRay.t F) : F :=
  atan2 (y (pos l) - y blackHolePosition) (x (pos l) - x blackHolePosition).
End Radius.
End Spec.

(** ** Concrete runs *)

Module Runs.
Import Binary64 AxisLibm Exact.
Local Open Scope float_scope.

(** The black hole of [Simulation::Simulation]: mass 8.54e36 kg at the
    origin. *)
Definition sagA : BlackHole.t float := BlackHole.new (vec2 0 0) (dec 854 34).

(** A photon on the positive x axis, 800 pixels out, moving outwards. *)
Definition outward : LightRay.t float := LightRay.new (vec2 800 0) (vec2 1 0).

(** A photon 50 pixels out: inside the horizon, whose radius is about 76
    pixels. *)
Definition inside : LightRay.t float := LightRay.new (vec2 50 0) (vec2 1 0).

(** A photon at the black hole's position. *)
Definition at_centre : LightRay.t float := LightRay.new (vec2 0 0) (vec2 1 0).



(** A photon of the exact reading: 3 pixels out on the x axis. *)
Definition exact_ray : LightRay.t R :=
  LightRay.new (vec2 3%R 0%R) (vec2 1%R 0%R).
End Runs.

(** ** Drawing and the main loop *)

(** How a function that can leave defined behaviour ends: with a result, in
    undefined behaviour (a read past the end of a vector, a signed
    overflow), or, for the loops modelled with fuel, out of fuel. *)
Inductive outcome (A : Type) : Type :=
| Done (a : A)
| Undefined
| OutOfFuel.
Arguments Done {A} _.
Arguments Undefined {A}.
Arguments OutOfFuel {A}.

Definition bind {A B : Type} (o : outcome A) (k : A -> outcome B) : outcome B :=
  match o with
  | Done a => k a
  | Undefined => Undefined
  | OutOfFuel => OutOfFuel
  end.

(** The title [main] gives its window. *)
Module Title.
Import Stdlib.Strings.String.
Local Open Scope string_scope.
End Title.

Module Render.
(** raylib's [Color]: the three named colours the program passes, and the
    colour it builds from four [unsigned char]s. *)
Inductive Color : Type :=
| BLACK
| RED
| WHITE
| rgba (r g b a : Z).

(** The calls of raylib the program makes, with their arguments. *)
Inductive call (F : Type) : Type :=
| InitWindow (width height : Z) (title : String.string)
| SetTargetFPS (fps : Z)
| CloseWindow
| BeginDrawing
| ClearBackground (color : Color)
| DrawCircleV (center : Vector2 F) (radius : F) (color : Color)
| DrawLineV (startPos endPos : Vector2 F) (color : Color)
| EndDrawing.
Arguments InitWindow {F} _ _ _.
Arguments SetTargetFPS {F} _.
Arguments CloseWindow {F}.
Arguments BeginDrawing {F}.
Arguments ClearBackground {F} _.
Arguments DrawCircleV {F} _ _ _.
Arguments DrawLineV {F} _ _ _.
Arguments EndDrawing {F}.

(** What [Draw] uses and the repository does not define: the conversion of
    a [float] to [unsigned char], which the language defines only for
    values that truncate into 0..255, and raymath's [Vector2Add]. *)
Class Native (F : Type) : Type := {
  to_uchar : F -> Z;
  Vector2Add : Vector2 F -> Vector2 F -> Vector2 F
}.

Section Def.
Context {F : Type} `{Arith F} `{External F} `{Native F}.
Local Open Scope num_scope.

Definition subf (a b : F) : F := to_float (a - b).

(** [lr.path.size() - 1] in [size_t], 64 bits wide: it wraps at 0. *)
Definition size_sub1 (N : Z) : Z := ((N - 1) mod 2 ^ 64)%Z.

(** Lines 177-179: [255 * (t - 1.0f)] with [t = float(i) / (N - 1)], the
    value each colour channel is converted from.  (An index is carried
    through [double]; that is exact below [2^53].) *)
Definition fade_value (i N : Z) : F :=
  let t := divf (to_float (dec i 0)) (to_float (dec (size_sub1 N) 0)) in
  mulf (to_float (dec 255 0)) (subf t (to_float (dec 1 0))).

(** Lines 178-182: [fadeColor]. *)
Definition fadeColor (i N : Z) : Color :=
  rgba (to_uchar (fade_value i N)) (to_uchar (fade_value i N))
       (to_uchar (fade_value i N)) 255.

(** Lines 175-184: the loop over the path, from index [i] on.  [path[i]]
    and [path[i + 1]] are unchecked reads. *)
Fixpoint lines (fuel : nat) (i : Z) (center : Vector2 F) (path : list (Vector2 F))
  : outcome (list (call F)) :=
  match fuel with
  | O => OutOfFuel
  | S fuel' =>
      if (i <? size_sub1 (Z.of_nat (length path)))%Z then
        match nth_error path (Z.to_nat i), nth_error path (Z.to_nat (i + 1)) with
        | Some a, Some b =>
            bind (lines fuel' (i + 1)%Z center path)
                 (fun rest =>
                    Done (DrawLineV (Vector2Add a center) (Vector2Add b center)
                            (fadeColor i (Z.of_nat (length path))) :: rest))
        | _, _ => Undefined
        end
      else Done []
  end.

(** Lines 172-184: one light ray. *)
Definition draw_ray (center : Vector2 F) (lr : LightRay.t F) : outcome (list (call F)) :=
  bind (lines (S (length (LightRay.path lr))) 0%Z center (LightRay.path lr))
       (fun ls =>
          Done (DrawCircleV (Vector2Add (LightRay.pos lr) center)
                  (to_float (dec 2 0)) WHITE :: ls)).

(** Lines 170-185: the loop over the light rays. *)
Fixpoint draw_rays (center : Vector2 F) (rays : list (LightRay.t F))
  : outcome (list (call F)) :=
  match rays with
  | [] => Done []
  | lr :: rest =>
      bind (draw_ray center lr)
           (fun first => bind (draw_rays center rest)
                           (fun others => Done (first ++ others)))
  end.

(** [void Simulation::Draw()] *)
Definition Draw (s : Simulation.t F) : outcome (list (call F)) :=
  let scaled_r_s := to_float (BlackHole.r_s (Simulation.blackHole s) * VIS_SCALE) in
  bind (draw_rays (Simulation.center s) (Simulation.lightRays s))
       (fun rays =>
          Done (BeginDrawing :: ClearBackground BLACK
                  :: DrawCircleV (Simulation.center s) scaled_r_s RED
                  :: rays ++ [EndDrawing])).

(** [void Simulation::Run()], over the frame times [GetFrameTime] returned
    while [WindowShouldClose] was false: the final world and the calls
    made. *)
Fixpoint Run (frames : list F) (s : Simulation.t F)
  : outcome (Simulation.t F * list (call F)) :=
  match frames with
  | [] => Done (s, [])
  | ft :: rest =>
      let s' := Simulation.Update (ft * TIME_MULTIPLIER) s in
      bind (Draw s')
           (fun frame => bind (Run rest s')
                           (fun r => Done (fst r, frame ++ snd r)))
  end.


End Def.

(** The paths are not empty and, [n] points longer, still have a size that
    [size_t] holds. *)
Definition within_size_t {F : Type} (n : nat) (rays : list (LightRay.t F)) : Prop :=
  Forall (fun lr => LightRay.path lr <> []
                    /\ (Z.of_nat (length (LightRay.path lr) + n) < 2 ^ 64)%Z) rays.

(** raymath's [Vector2Add], in [float] arithmetic. *)
Definition raymath_Vector2Add {F : Type} `{Arith F} (v1 v2 : Vector2 F) : Vector2 F :=
  vec2 (addf (x v1) (x v2)) (addf (y v1) (y v2)).
End Render.

(** [Draw] in binary64.  The conversion to [unsigned char] truncates; for
    a value outside 0..255, where the language defines nothing, it keeps
    the low eight bits (what the x86 conversion through [int] gives). *)
Module Binary64Draw.
Import Binary64.

Definition trunc (d : float) : Z :=
  match Prim2SF d with
  | S754_finite sg m e =>
      let n := match e with
               | Zneg p => Z.shiftr (Zpos m) (Zpos p)
               | _ => (Zpos m * 2 ^ e)%Z
               end in
      if sg then (- n)%Z else n
  | _ => 0%Z
  end.

#[export] Instance native : Render.Native float := {|
  Render.to_uchar := fun d => (trunc d mod 256)%Z;
  Render.Vector2Add := Render.raymath_Vector2Add
|}.

Definition emptied : Simulation.t float :=
  Simulation.mk Runs.sagA
    [Runs.outward;
     LightRay.mk (vec2 50%float 0%float) (vec2 1%float 0%float)
       0%float 0%float 0%float 0%float []]
    (vec2 800%float 450%float).
End Binary64Draw.

(** ** The straight-line version of the program

    [src/main.cpp]: photons move in straight lines and the world tests
    them against a vector of black holes.  Its constants and its
    [BlackHole] constructor are those above.  Modelled here: the
    [LightRay] constructor and [Update], [Simulation::Init] and
    [Simulation::Update]; its drawing and its main loop are not. *)

Module Legacy.
(** raymath's [Vector2Distance], which [Simulation::Update] calls. *)
Class Raymath (F : Type) : Type := {
  Vector2Distance : Vector2 F -> Vector2 F -> F
}.

(** [int]: 32 bits, two's complement.  An arithmetic result outside the
    range is undefined behaviour. *)
Definition INT_MIN : Z := (- 2 ^ 31)%Z.
Definition INT_MAX : Z := (2 ^ 31 - 1)%Z.
Definition in_int (n : Z) : bool := (INT_MIN <=? n)%Z && (n <=? INT_MAX)%Z.

Module LightRay.
Record t (F : Type) : Type := mk {
  pos : Vector2 F;
  dir : Vector2 F;
  path : list (Vector2 F)
}.
Arguments mk {F} _ _ _.
Arguments pos {F} _.
Arguments dir {F} _.
Arguments path {F} _.

Section Def.
Context {F : Type} `{Arith F}.
Local Open Scope num_scope.

(** [LightRay::LightRay(Vector2 position, Vector2 direction)] *)
Definition new (position direction : Vector2 F) : t F :=
  {| pos := position; dir := direction; path := [position] |}.

(** [void LightRay::Update(double dt)] *)
Definition Update (dt : F) (l : t F) : t F :=
  let pos' :=
    vec2 (addf (x (pos l)) (mulf (x (dir l)) (to_float (c * dt * VIS_SCALE))))
         (addf (y (pos l)) (mulf (y (dir l)) (to_float (c * dt * VIS_SCALE)))) in
  {| pos := pos'; dir := dir l; path := path l ++ [pos'] |}.

(** Successive calls of [Update], one per element of [dts]. *)
Definition run (dts : list F) (l : t F) : t F :=
  fold_left (fun l dt => Update dt l) dts l.
End Def.
End LightRay.

Module Simulation.
Record t (F : Type) : Type := mk {
  blackHoles : list (BlackHole.t F);
  lightRays : list (LightRay.t F)
}.
Arguments mk {F} _ _.
Arguments blackHoles {F} _.
Arguments lightRays {F} _.

Section Def.
Context {F : Type} `{Arith F} `{Raymath F}.
Local Open Scope num_scope.

(** The ray [Init] builds at index [i] of its loop. *)
Definition ray_at (i step : Z) : LightRay.t F :=
  LightRay.new (vec2 (to_float (dec 0 0)) (to_float (dec (i + Z.quot step 2) 0)))
               (vec2 (to_float (dec 1 0)) (to_float (dec 0 0))).

(** The loop of [Init], from [i] on: [for (...; i < height; i += step)]. *)
Fixpoint seed (fuel : nat) (i step height : Z) (rays : list (LightRay.t F))
  : outcome (list (LightRay.t F)) :=
  match fuel with
  | O => OutOfFuel
  | S fuel' =>
      if (i <? height)%Z then
        if in_int (i + Z.quot step 2) && in_int (i + step) then
          seed fuel' (i + step)%Z step height (rays ++ [ray_at i step])
        else Undefined
      else Done rays
  end.

(** [void Simulation::Init(int width, int height)] *)
Definition Init (fuel : nat) (width height : Z) (s : t F) : outcome (t F) :=
  let SagA :=
    BlackHole.new (vec2 (divf (to_float (dec width 0)) (to_float (dec 2 0)))
                        (divf (to_float (dec height 0)) (to_float (dec 2 0))))
                  (dec 854 34) in
  let numRays := 20%Z in
  let step := Z.quot height numRays in
  bind (seed fuel 0%Z step height (lightRays s))
       (fun rays => Done {| blackHoles := blackHoles s ++ [SagA]; lightRays := rays |}).

(** The inner loop of [Update]: is the ray within the Schwarzschild radius
    of a black hole?  The loop stops at the first one. *)
Fixpoint absorbed (bhs : list (BlackHole.t F)) (lr : LightRay.t F) : bool :=
  match bhs with
  | [] => false
  | bh :: rest =>
      let distance := Vector2Distance (LightRay.pos lr) (BlackHole.pos bh) / VIS_SCALE in
      if distance <? BlackHole.r_s bh then true else absorbed rest lr
  end.

(** The outer loop of [Update]. *)
Fixpoint update_rays (dt : F) (bhs : list (BlackHole.t F)) (rays : list (LightRay.t F))
  : list (LightRay.t F) :=
  match rays with
  | [] => []
  | lr :: rest =>
      (if absorbed bhs lr then lr else LightRay.Update dt lr)
        :: update_rays dt bhs rest
  end.

(** [void Simulation::Update(double dt)] *)
Definition Update (dt : F) (s : t F) : t F :=
  {| blackHoles := blackHoles s;
     lightRays := update_rays dt (blackHoles s) (lightRays s) |}.

(** Successive calls of [Update], one per element of [dts]. *)
Definition steps (dts : list F) (s : t F) : t F :=
  fold_left (fun s dt => Update dt s) dts s.
End Def.
End Simulation.

(** raymath's [Vector2Distance], in [float] arithmetic. *)
Definition raymath_Vector2Distance {F : Type} `{Arith F} (v1 v2 : Vector2 F) : F :=
  to_float
    (sqrt (addf (mulf (Render.subf (x v1) (x v2)) (Render.subf (x v1) (x v2)))
                (mulf (Render.subf (y v1) (y v2)) (Render.subf (y v1) (y v2))))).
End Legacy.

(** Worlds of the straight-line version in binary64: the black hole of
    [Init] for a 1600 by 900 window, a second one far away, a ray 10
    pixels from the first and a ray far from both. *)
Module LegacyRuns.
Import Binary64.

#[export] Instance raymath : Legacy.Raymath float := {|
  Legacy.Vector2Distance := Legacy.raymath_Vector2Distance
|}.

Definition near_hole : BlackHole.t float :=
  BlackHole.new (vec2 800%float 450%float) (dec 854 34).
Definition far_hole : BlackHole.t float :=
  BlackHole.new (vec2 5000%float 5000%float) (dec 854 34).
Definition caught : Legacy.LightRay.t float :=
  Legacy.LightRay.new (vec2 800%float 440%float) (vec2 1%float 0%float).
Definition free : Legacy.LightRay.t float :=
  Legacy.LightRay.new (vec2 0%float 22%float) (vec2 1%float 0%float).
Definition unseeded : Legacy.Simulation.t float := Legacy.Simulation.mk [] [].
End LegacyRuns.

(** Two doubles that the comparison [==] tells apart are different. *)
Ltac float_neq :=
  let Heq := fresh "Heq" in
  intros Heq;
  match type of Heq with
  | _ = ?b => apply (f_equal (fun v => PrimFloat.eqb v b)) in Heq
  end;
  vm_compute in Heq; discriminate Heq.

(** ** The constants in binary64 *)

(** [c] is a [float] literal: the nearest binary32 value to 299792458 is
    299792448. *)
Example binary64_c : @c float Binary64.arith = 299792448%float.
Proof. vm_compute. reflexivity. Qed.

(** [G] is a [float] literal too; its double is not halfway between two
    binary32 values, so rounding the double gives the nearest binary32
    value of the decimal. *)
Example binary64_G :
  @G float Binary64.arith = 0x1.2589fp-34%float
  /\ Prim2SF (Binary64.dec64 667430 (-16)) = S754_finite false 5163989502626508 (-86)
  /\ (5163989502626508 mod 2 ^ 29 <> 2 ^ 28)%Z.
Proof.
  split; [vm_compute; reflexivity |].
  split; [vm_compute; reflexivity |]. vm_compute. discriminate.
Qed.

(** The decimal literals of the program, as their nearest doubles. *)
Example binary64_literals :
  @VIS_SCALE float Binary64.arith = 0x1.9c511dc3a41dfp-28%float
  /\ Binary64.dec64 854 34 = 0x1.9b2fa085b8b6dp+122%float
  /\ Binary64.dec64 28599 (-2) = 0x1.1dfd70a3d70a4p+8%float
  /\ @TIME_MULTIPLIER float Binary64.arith = 100%float.
Proof. repeat split; vm_compute; reflexivity. Qed.

(** The black hole of [Simulation::Simulation] is [Runs.sagA], whatever
    <cmath> is; its Schwarzschild radius is 12683882588.803398 m, about 76.1
    pixels. *)
Example binary64_sagA (E : External float) (width height : Z) :
  Simulation.blackHole (@Simulation.new float Binary64.arith E width height)
  = Runs.sagA
  /\ BlackHole.r_s Runs.sagA = 0x1.7a02582e66d5cp+33%float
  /\ PrimFloat.mul (BlackHole.r_s Runs.sagA) (@VIS_SCALE float Binary64.arith)
     = 0x1.3069c64ddd255p+6%float.
Proof. repeat split; vm_compute; reflexivity. Qed.

(** ** The two guards and the live step *)

Section Guards.
Context {F : Type} `{Arith F} `{External F}.
Import LightRay.
Local Open Scope num_scope.

Lemma radius_rederive (l : t F) : radius (rederive l) = radius l.
Proof. reflexivity. Qed.

Lemma entering_rederive (l : t F) : entering (rederive l) = entering l.
Proof. reflexivity. Qed.

Lemma live_guards (r_s : F) (l : t F) :
  live r_s l = true <->
  (radius l <=? dec 0 0) = false /\ (radius l <? r_s) = false.
Proof.
  unfold live. rewrite andb_true_iff, !negb_true_iff. tauto.
Qed.

Lemma Update_zero (dt r_s : F) (l : t F) :
  (radius l <=? dec 0 0) = true -> Update dt r_s l = rederive l.
Proof.
  intros Hz. unfold Update. cbn [r rederive]. now rewrite Hz.
Qed.

Lemma Update_absorbed (dt r_s : F) (l : t F) :
  (radius l <? r_s) = true -> Update dt r_s l = rederive l.
Proof.
  intros Hlt. unfold Update. cbn [r rederive]. rewrite Hlt.
  now destruct (radius l <=? dec 0 0).
Qed.

Lemma Update_live (dt r_s : F) (l : t F) :
  live r_s l = true ->
  Update dt r_s l = store (rederive l) (integrate dt r_s (entering l)).
Proof.
  intros Hl. apply live_guards in Hl as [Hz Hlt].
  unfold Update. cbn [r rederive]. now rewrite Hz, Hlt.
Qed.

(** Whatever the guards decide, the path keeps what it had. *)
Lemma Update_path (dt r_s : F) (l : t F) :
  path (Update dt r_s l)
  = path l ++ (if live r_s l then [pos (Update dt r_s l)] else []).
Proof.
  destruct (live r_s l) eqn:Hl.
  - now rewrite (Update_live dt r_s l Hl).
  - rewrite app_nil_r. unfold live in Hl.
    apply andb_false_iff in Hl as [Hl | Hl]; apply negb_false_iff in Hl.
    + now rewrite Update_zero.
    + now rewrite Update_absorbed.
Qed.

Lemma run_cons (r_s dt : F) (dts : list F) (l : t F) :
  run r_s (dt :: dts) l = run r_s dts (Update dt r_s l).
Proof. reflexivity. Qed.
End Guards.

(** ** Absorption and the singularity guard *)

Section Frozen.
Context {F : Type} `{Arith F} `{External F}.
Import LightRay.

(** A call stopped by either guard changes nothing but the members [r] and
    [phi], and those depend on [pos] alone: the next call meets the same
    guard. *)
Lemma stopped_run (r_s : F) (dts : list F) (l : t F) :
  live r_s l = false ->
  run r_s dts l = match dts with [] => l | _ :: _ => rederive l end.
Proof.
  intros Hl. revert l Hl.
  induction dts as [| dt dts IH]; intros l Hl; [reflexivity |].
  assert (Hu : Update dt r_s l = rederive l).
  { unfold live in Hl.
    apply andb_false_iff in Hl as [Hl | Hl]; apply negb_false_iff in Hl.
    - now apply Update_zero.
    - now apply Update_absorbed. }
  rewrite run_cons, Hu, IH by exact Hl.
  now destruct dts.
Qed.

Lemma stopped_run_fields (r_s : F) (dts : list F) (l : t F) :
  live r_s l = false ->
  pos (run r_s dts l) = pos l /\ dir (run r_s dts l) = dir l
  /\ dr (run r_s dts l) = dr l /\ dphi (run r_s dts l) = dphi l
  /\ path (run r_s dts l) = path l.
Proof.
  intros Hl. rewrite (stopped_run r_s dts l Hl).
  destruct dts; repeat split; reflexivity.
Qed.
End Frozen.

(** C2. Once the radius derived from a photon's position is below the
    Schwarzschild radius, any number of further calls of [Update], with any
    time steps, leave its position, its direction and its path (so the
    path's length) as they were, and the derived radius is still below the
    Schwarzschild radius afterwards: the photon stays absorbed. *)
Theorem absorbed_photon_is_frozen
  {F : Type} {A : Arith F} {E : External F}
  (r_s : F) (dts : list F) (l : LightRay.t F) :
  ltb (LightRay.radius l) r_s = true ->
  LightRay.pos (LightRay.run r_s dts l) = LightRay.pos l
  /\ LightRay.dir (LightRay.run r_s dts l) = LightRay.dir l
  /\ LightRay.path (LightRay.run r_s dts l) = LightRay.path l
  /\ length (LightRay.path (LightRay.run r_s dts l)) = length (LightRay.path l)
  /\ ltb (LightRay.radius (LightRay.run r_s dts l)) r_s = true.
Proof.
  intros Hlt.
  assert (Hl : LightRay.live r_s l = false).
  { unfold LightRay.live. rewrite Hlt. apply andb_false_r. }
  destruct (stopped_run_fields r_s dts l Hl) as (Hp & Hd & _ & _ & Hpath).
  repeat split; try assumption.
  - now rewrite Hpath.
  - unfold LightRay.radius in *. now rewrite Hp.
Qed.

(** C5. When the radius derived from the photon's position is not positive
    (the photon is where the black hole is), [Update] returns at the first
    guard: the position, the direction, the members [dr] and [dphi] and the
    path are those it was called with, so the position is no new value, NaN
    or other. *)
Theorem zero_radius_guard_is_noop
  {F : Type} {A : Arith F} {E : External F}
  (dt r_s : F) (l : LightRay.t F) :
  leb (LightRay.radius l) (dec 0 0) = true ->
  LightRay.pos (LightRay.Update dt r_s l) = LightRay.pos l
  /\ LightRay.dir (LightRay.Update dt r_s l) = LightRay.dir l
  /\ LightRay.dr (LightRay.Update dt r_s l) = LightRay.dr l
  /\ LightRay.dphi (LightRay.Update dt r_s l) = LightRay.dphi l
  /\ LightRay.path (LightRay.Update dt r_s l) = LightRay.path l.
Proof.
  intros Hz. rewrite (Update_zero dt r_s l Hz). repeat split.
Qed.


(** ** The path *)

Section Path.
Context {F : Type} `{Arith F} `{External F}.
Import LightRay.

Lemma run_path_prefix (r_s : F) (dts : list F) (l : t F) :
  exists added,
    path (run r_s dts l) = path l ++ added /\ length added <= length dts.
Proof.
  revert l. induction dts as [| dt dts IH]; intros l.
  - exists []. split; [now rewrite app_nil_r | apply le_n].
  - destruct (IH (Update dt r_s l)) as (added & Hp & Hn).
    rewrite run_cons, Hp, Update_path, <- app_assoc.
    eexists. split; [reflexivity |].
    rewrite length_app. cbn [length].
    destruct (live r_s l); cbn [length]; lia.
Qed.

Lemma live_run_length (r_s : F) (dts : list F) (l : t F) :
  all_live r_s dts l = true ->
  length (path (run r_s dts l)) = length (path l) + length dts.
Proof.
  revert l. induction dts as [| dt dts IH]; intros l Hl.
  - cbn. lia.
  - cbn [all_live] in Hl. apply andb_true_iff in Hl as [Hl Hrest].
    rewrite run_cons, (IH _ Hrest), Update_path, Hl, length_app.
    cbn [length]. lia.
Qed.
End Path.

(** C4. The path is append-only.  A new photon's path is its initial
    position alone; a call of [Update] that passes the guards appends one
    point, the new position; whatever the guards decide, a run of calls
    keeps the points it found, in their order, and adds at most one per
    call; and after [n] calls that all pass the guards the path of a new
    photon has [n + 1] points, the first still the initial position. *)
Theorem path_is_append_only
  {F : Type} {A : Arith F} {E : External F}
  (r_s : F) (position direction : Vector2 F) (dts : list F) (l : LightRay.t F) :
  LightRay.path (LightRay.new position direction) = [position]
  /\ (forall dt, LightRay.live r_s l = true ->
        LightRay.path (LightRay.Update dt r_s l)
        = LightRay.path l ++ [LightRay.pos (LightRay.Update dt r_s l)])
  /\ (exists added,
        LightRay.path (LightRay.run r_s dts l) = LightRay.path l ++ added
        /\ length added <= length dts)
  /\ hd_error (LightRay.path (LightRay.run r_s dts (LightRay.new position direction)))
     = Some position
  /\ (LightRay.all_live r_s dts (LightRay.new position direction) = true ->
        length (LightRay.path (LightRay.run r_s dts (LightRay.new position direction)))
        = length dts + 1).
Proof.
  split; [reflexivity |].
  split; [intros dt Hl; now rewrite Update_path, Hl |].
  split; [apply run_path_prefix |].
  split.
  - destruct (run_path_prefix r_s dts (LightRay.new position direction))
      as (added & Hp & _).
    now rewrite Hp.
  - intros Hl. rewrite (live_run_length _ _ _ Hl). cbn. lia.
Qed.

(** ** Runs in binary64 on the x axis *)

Section AxisRuns.
Import Binary64 AxisLibm Runs.
Local Open Scope float_scope.

Lemma absorbed_photon_is_frozen_witness :
  ltb (LightRay.radius inside) (BlackHole.r_s sagA) = true
  /\ LightRay.pos (LightRay.run (BlackHole.r_s sagA) [100; -100; 0] inside)
     = LightRay.pos inside
  /\ length (LightRay.path (LightRay.run (BlackHole.r_s sagA) [100; -100; 0] inside))
     = length (LightRay.path inside).
Proof.
  assert (Hlt : ltb (LightRay.radius inside) (BlackHole.r_s sagA) = true)
    by (vm_compute; reflexivity).
  split; [exact Hlt |].
  destruct (absorbed_photon_is_frozen (BlackHole.r_s sagA) [100; -100; 0] inside Hlt)
    as (Hp & _ & _ & Hn & _).
  split; [exact Hp | exact Hn].
Defined.

Lemma zero_radius_guard_is_noop_witness :
  leb (LightRay.radius at_centre) (dec 0 0) = true
  /\ LightRay.pos (LightRay.Update 100 (BlackHole.r_s sagA) at_centre) = vec2 0 0
  /\ LightRay.path (LightRay.Update 100 (BlackHole.r_s sagA) at_centre) = [vec2 0 0].
Proof.
  assert (Hz : leb (LightRay.radius at_centre) (dec 0 0) = true)
    by (vm_compute; reflexivity).
  split; [exact Hz |].
  destruct (zero_radius_guard_is_noop 100 (BlackHole.r_s sagA) at_centre Hz)
    as (Hp & _ & _ & _ & Hpath).
  split; [exact Hp | exact Hpath].
Defined.


Lemma path_is_append_only_witness :
  LightRay.all_live (BlackHole.r_s sagA) [100; 100; 100] outward = true
  /\ length (LightRay.path (LightRay.run (BlackHole.r_s sagA) [100; 100; 100] outward))
     = 4%nat.
Proof.
  assert (Hl : LightRay.all_live (BlackHole.r_s sagA) [100; 100; 100] outward = true)
    by (vm_compute; reflexivity).
  split; [exact Hl |].
  destruct (path_is_append_only (BlackHole.r_s sagA) (vec2 800 0) (vec2 1 0)
              [100; 100; 100] outward) as (_ & _ & _ & _ & Hn).
  exact (Hn Hl).
Defined.
End AxisRuns.

(** ** The world's step *)

Section World.
Context {F : Type} `{Arith F} `{External F}.
Import Simulation.

Lemma update_rays_map (dt r_s : F) (rays : list (LightRay.t F)) :
  update_rays dt r_s rays = map (LightRay.Update dt r_s) rays.
Proof.
  induction rays as [| lr rest IH]; cbn; [reflexivity | now rewrite IH].
Qed.

Lemma steps_cons (dt : F) (dts : list F) (s : t F) :
  steps (dt :: dts) s = steps dts (Update dt s).
Proof. reflexivity. Qed.


(** The rays after a run depend on the rays and on [r_s], on nothing else
    of the world. *)
Lemma steps_lightRays (dts : list F) (s s' : t F) :
  lightRays s = lightRays s' ->
  BlackHole.r_s (blackHole s) = BlackHole.r_s (blackHole s') ->
  lightRays (steps dts s) = lightRays (steps dts s').
Proof.
  revert s s'. induction dts as [| dt dts IH]; intros s s' Hr Hs; [exact Hr |].
  rewrite !steps_cons. apply IH; cbn [Update lightRays blackHole].
  - now rewrite Hr, Hs.
  - exact Hs.
Qed.
End World.

Lemma reorder_map {A B : Type} (f : A -> B) (idx : list nat) (l : list A) :
  Simulation.reorder idx (map f l) = map f (Simulation.reorder idx l).
Proof.
  unfold Simulation.reorder.
  induction idx as [| i idx IH]; [reflexivity |].
  cbn [flat_map]. rewrite map_app, IH, nth_error_map.
  now destruct (nth_error l i).
Qed.

(** C7. One step of the world updates every photon of the collection with
    the black hole's Schwarzschild radius and leaves the black hole as it
    was; each photon's new state is [LightRay.Update] of its own old state,
    so the step commutes with any reordering of the collection: reordering,
    stepping and undoing the reordering gives what stepping gives, and the
    steps of two permutations of a collection are permutations of each
    other. *)
Theorem step_is_order_independent
  {F : Type} {A : Arith F} {E : External F}
  (dt : F) (bh : BlackHole.t F) (ctr : Vector2 F)
  (rays rays' : list (LightRay.t F)) (idx back : list nat) :
  let step := fun rs =>
    Simulation.lightRays (Simulation.Update dt (Simulation.mk bh rs ctr)) in
  step rays = map (LightRay.Update dt (BlackHole.r_s bh)) rays
  /\ Simulation.blackHole (Simulation.Update dt (Simulation.mk bh rays ctr)) = bh
  /\ step (Simulation.reorder idx rays) = Simulation.reorder idx (step rays)
  /\ (Simulation.reorder back (Simulation.reorder idx rays) = rays ->
      Simulation.reorder back (step (Simulation.reorder idx rays)) = step rays)
  /\ (Permutation rays rays' -> Permutation (step rays) (step rays')).
Proof.
  cbn zeta. cbn [Simulation.Update Simulation.lightRays Simulation.blackHole].
  rewrite !update_rays_map.
  split; [reflexivity |]. split; [reflexivity |].
  split; [symmetry; apply reorder_map |].
  split.
  - intros Hback. now rewrite reorder_map, Hback.
  - intros Hperm. now apply Permutation_map.
Qed.

Section WorldRun.
Import Binary64 AxisLibm.

Lemma step_is_order_independent_witness :
  Simulation.reorder [1; 0] (Simulation.reorder [1; 0] [Runs.outward; Runs.inside])
  = [Runs.outward; Runs.inside]
  /\ Permutation [Runs.outward; Runs.inside] [Runs.inside; Runs.outward]
  /\ Simulation.reorder [1; 0]
       (Simulation.lightRays
          (Simulation.Update (dec 100 0)
             (Simulation.mk Runs.sagA
                (Simulation.reorder [1; 0] [Runs.outward; Runs.inside])
                (vec2 (dec 800 0) (dec 450 0)))))
     = Simulation.lightRays
         (Simulation.Update (dec 100 0)
            (Simulation.mk Runs.sagA [Runs.outward; Runs.inside]
               (vec2 (dec 800 0) (dec 450 0))))
  /\ Permutation
       (Simulation.lightRays
          (Simulation.Update (dec 100 0)
             (Simulation.mk Runs.sagA [Runs.outward; Runs.inside]
                (vec2 (dec 800 0) (dec 450 0)))))
       (Simulation.lightRays
          (Simulation.Update (dec 100 0)
             (Simulation.mk Runs.sagA [Runs.inside; Runs.outward]
                (vec2 (dec 800 0) (dec 450 0))))).
Proof.
  assert (Hback : Simulation.reorder [1; 0]
                    (Simulation.reorder [1; 0] [Runs.outward; Runs.inside])
                  = [Runs.outward; Runs.inside]) by reflexivity.
  assert (Hperm : Permutation [Runs.outward; Runs.inside] [Runs.inside; Runs.outward])
    by apply perm_swap.
  destruct (@step_is_order_independent float Binary64.arith AxisLibm.external
              (dec 100 0) Runs.sagA (vec2 (dec 800 0) (dec 450 0))
              [Runs.outward; Runs.inside] [Runs.inside; Runs.outward] [1; 0] [1; 0])
    as (_ & _ & _ & Hundo & Hp).
  split; [exact Hback |]. split; [exact Hperm |].
  split; [exact (Hundo Hback) | exact (Hp Hperm)].
Defined.
End WorldRun.

(** ** The Schwarzschild radius *)

Lemma exact_c : @c R Exact.arith = 299792458%R.
Proof. cbv [c to_float dec Exact.arith Exact.decR powerRZ]. ring. Qed.


Lemma exact_int (n : Z) : @dec R Exact.arith n 0 = IZR n.
Proof. cbv [dec Exact.arith Exact.decR powerRZ]. ring. Qed.



(** ** The black hole's position *)

(** Subtracting the double [0] changes no double. *)
Lemma float_sub_zero (a : float) : PrimFloat.sub a 0%float = a.
Proof.
  rewrite <- (SF2Prim_Prim2SF (PrimFloat.sub a 0%float)), sub_spec.
  change (Prim2SF 0%float) with (S754_zero false).
  rewrite <- (SF2Prim_Prim2SF a) at 2. f_equal.
  destruct (Prim2SF a) as [[|] | | | ]; reflexivity.
Qed.

(** C10. The photons' states after any run of steps do not depend on the
    position stored in the black hole: [LightRay.Update] is given the
    Schwarzschild radius only, and takes the photon's radius and angle from
    the coordinate origin.  [Simulation.new] puts the black hole at the
    origin, and there the radius and the angle the specification derives
    from the offset to the black hole are those of the program, in binary64
    and in exact arithmetic; for a black hole elsewhere they are not (a
    black hole 100 pixels out, a photon 800 pixels out, both on the
    x axis). *)
Theorem black_hole_position_is_unused
  {F : Type} {A : Arith F} {E : External F}
  (p p' : Vector2 F) (m r_s : F) (rays : list (LightRay.t F)) (ctr : Vector2 F)
  (dts : list F) (width height : Z)
  (E64 : External float) (l64 : LightRay.t float)
  (ER : External R) (lR : LightRay.t R) :
  Simulation.lightRays
    (Simulation.steps dts (Simulation.mk (BlackHole.mk p m r_s) rays ctr))
  = Simulation.lightRays
      (Simulation.steps dts (Simulation.mk (BlackHole.mk p' m r_s) rays ctr))
  /\ BlackHole.pos (Simulation.blackHole (Simulation.new width height))
     = vec2 (to_float (dec 0 0)) (to_float (dec 0 0))
  /\ (let origin := BlackHole.pos (Simulation.blackHole
                                     (@Simulation.new float Binary64.arith E64 width height)) in
      @Spec.radius float Binary64.arith E64 origin l64
      = @LightRay.radius float Binary64.arith E64 l64
      /\ @Spec.angle float Binary64.arith E64 origin l64
         = @LightRay.angle float E64 l64)
  /\ (let origin := BlackHole.pos (Simulation.blackHole
                                     (@Simulation.new R Exact.arith ER width height)) in
      @Spec.radius R Exact.arith ER origin lR
      = @LightRay.radius R Exact.arith ER lR
      /\ @Spec.angle R Exact.arith ER origin lR
         = @LightRay.angle R ER lR)
  /\ @Spec.radius float Binary64.arith AxisLibm.external
       (vec2 100%float 0%float) Runs.outward
     <> @LightRay.radius float Binary64.arith AxisLibm.external Runs.outward.
Proof.
  split; [now apply steps_lightRays |].
  split; [reflexivity |].
  split; [| split].
  - cbn zeta. unfold Spec.radius, Spec.angle, LightRay.radius, LightRay.angle.
    cbn [Simulation.new Simulation.blackHole BlackHole.new BlackHole.pos x y].
    change (@to_float float Binary64.arith (dec 0 0)) with 0%float.
    cbn [sub Binary64.arith]. now rewrite !float_sub_zero.
  - cbn zeta. unfold Spec.radius, Spec.angle, LightRay.radius, LightRay.angle.
    cbn [Simulation.new Simulation.blackHole BlackHole.new BlackHole.pos x y].
    cbn [to_float sub Exact.arith]. rewrite exact_int, !Rminus_0_r.
    split; reflexivity.
  - float_neq.
Qed.

(** ** The integration in exact arithmetic *)

Lemma exact_leb_false (a b : R) : @leb R Exact.arith a b = false <-> (b < a)%R.
Proof.
  cbv [leb Exact.arith Exact.lebR]. destruct (Rle_dec a b); split; intros Hx;
    try discriminate; try reflexivity; lra.
Qed.

Lemma exact_ltb_false (a b : R) : @ltb R Exact.arith a b = false <-> (b <= a)%R.
Proof.
  cbv [ltb Exact.arith Exact.ltbR]. destruct (Rlt_dec a b); split; intros Hx;
    try discriminate; try reflexivity; lra.
Qed.

Lemma exact_live {E : External R} (r_s : R) (l : LightRay.t R) :
  @LightRay.live R Exact.arith E r_s l = true
  <-> (0 < @LightRay.radius R Exact.arith E l)%R
      /\ (r_s <= @LightRay.radius R Exact.arith E l)%R.
Proof.
  rewrite live_guards, exact_leb_false, exact_ltb_false, exact_int. tauto.
Qed.

Lemma exact_integrate (dt r_s : R) (p : LightRay.polar R) :
  (0 < LightRay.p_r p)%R ->
  @LightRay.integrate R Exact.arith dt r_s p = Spec.GeodesicIntegrator r_s dt p.
Proof.
  intros Hr. unfold Spec.GeodesicIntegrator.
  destruct (Rle_dec (LightRay.p_r p) 0) as [Hle | _]; [lra |].
  unfold LightRay.integrate. rewrite !exact_int, exact_c.
  cbv [add sub mul div neg Exact.arith Spec.c]. cbv zeta.
  f_equal; field; lra.
Qed.

(** C1. A call of [Update] on a photon whose derived radius [r] is
    positive and at least [r_s] integrates in the order the specification
    gives, for every [dt].  In any arithmetic, the program's doubles
    included, the rates are advanced first and the position is advanced
    with the new rates, [r += (dr/dt)·dt] and [φ += (dφ/dt)·dt], and what
    [Update] stores is computed from that state.  In exact arithmetic the
    step is the specification's GeodesicIntegrator: from
    [L = r²·(dφ/dt)/c] and the accelerations
    [d²r/dt² = −(r_s·c²)/(2r²) + (L²c²)/r³ − (3·r_s·L²c²)/(2r⁴)] and
    [d²φ/dt² = (−2/r)·(dr/dt)·(dφ/dt)], the new rates are
    [dr/dt + d²r/dt²·dt] and [dφ/dt + d²φ/dt²·dt]. *)
Theorem integration_follows_the_specification
  {F : Type} {A : Arith F} {E : External F} (dtF r_sF : F) (lF : LightRay.t F)
  {ER : External R} (dt r_s : R) (l : LightRay.t R) :
  (LightRay.live r_sF lF = true ->
   let start := LightRay.entering lF in
   let next := LightRay.integrate dtF r_sF start in
   LightRay.Update dtF r_sF lF = LightRay.store (LightRay.rederive lF) next
   /\ LightRay.p_r next = (LightRay.p_r start + LightRay.dr_dt next * dtF)%num
   /\ LightRay.p_phi next = (LightRay.p_phi start + LightRay.dphi_dt next * dtF)%num)
  /\ (let start := @LightRay.entering R Exact.arith ER l in
      let next := @LightRay.integrate R Exact.arith dt r_s start in
      (0 < LightRay.p_r start)%R ->
      (r_s <= LightRay.p_r start)%R ->
      @LightRay.Update R Exact.arith ER dt r_s l
      = @LightRay.store R Exact.arith ER (@LightRay.rederive R Exact.arith ER l) next
      /\ next = Spec.GeodesicIntegrator r_s dt start
      /\ (let r := LightRay.p_r start in
          let L := (r ^ 2 * LightRay.dphi_dt start / 299792458)%R in
          LightRay.dr_dt next
          = (LightRay.dr_dt start
             + (- (r_s * 299792458 ^ 2) / (2 * r ^ 2)
                + (L ^ 2 * 299792458 ^ 2) / r ^ 3
                - (3 * r_s * L ^ 2 * 299792458 ^ 2) / (2 * r ^ 4)) * dt)%R
          /\ LightRay.dphi_dt next
             = (LightRay.dphi_dt start
                + ((- 2 / r) * LightRay.dr_dt start * LightRay.dphi_dt start) * dt)%R
          /\ LightRay.p_r next = (r + LightRay.dr_dt next * dt)%R
          /\ LightRay.p_phi next
             = (LightRay.p_phi start + LightRay.dphi_dt next * dt)%R)).
Proof.
  split.
  { intros Hlive start next.
    split; [exact (Update_live dtF r_sF lF Hlive) |]. split; reflexivity. }
  intros start next Hpos Hout.
  assert (Hlive : @LightRay.live R Exact.arith ER r_s l = true)
    by (apply exact_live; split; assumption).
  split; [exact (Update_live dt r_s l Hlive) |].
  assert (Hnext : next = Spec.GeodesicIntegrator r_s dt start)
    by (apply exact_integrate; exact Hpos).
  split; [exact Hnext |].
  rewrite Hnext. unfold Spec.GeodesicIntegrator.
  destruct (Rle_dec (LightRay.p_r start) 0) as [Hle | _]; [lra |].
  cbv zeta. cbn [LightRay.dr_dt LightRay.dphi_dt LightRay.p_r LightRay.p_phi].
  unfold Spec.c. repeat split; reflexivity.
Qed.

Lemma exact_ray_radius :
  @LightRay.radius R Exact.arith Exact.external Runs.exact_ray = 500000000%R.
Proof.
  cbv [LightRay.radius Runs.exact_ray LightRay.new LightRay.pos x y
       hypot Exact.external div Exact.arith VIS_SCALE dec Exact.decR powerRZ].
  change (Pos.to_nat 9) with 9%nat.
  replace (3 * 3 + 0 * 0)%R with (3 * 3)%R by ring.
  rewrite sqrt_square by lra. field.
Qed.

Lemma integration_follows_the_specification_witness :
  @LightRay.live float Binary64.arith AxisLibm.external
    (BlackHole.r_s Runs.sagA) Runs.outward = true
  /\ @LightRay.Update float Binary64.arith AxisLibm.external
       100%float (BlackHole.r_s Runs.sagA) Runs.outward
     = @LightRay.store float Binary64.arith AxisLibm.external
         (@LightRay.rederive float Binary64.arith AxisLibm.external Runs.outward)
         (@LightRay.integrate float Binary64.arith 100%float (BlackHole.r_s Runs.sagA)
            (@LightRay.entering float Binary64.arith AxisLibm.external Runs.outward))
  /\ (0 < LightRay.p_r (@LightRay.entering R Exact.arith Exact.external Runs.exact_ray))%R
  /\ (1 <= LightRay.p_r (@LightRay.entering R Exact.arith Exact.external Runs.exact_ray))%R
  /\ @LightRay.integrate R Exact.arith 2%R 1%R
       (@LightRay.entering R Exact.arith Exact.external Runs.exact_ray)
     = Spec.GeodesicIntegrator 1%R 2%R
         (@LightRay.entering R Exact.arith Exact.external Runs.exact_ray).
Proof.
  assert (Hlive : @LightRay.live float Binary64.arith AxisLibm.external
                    (BlackHole.r_s Runs.sagA) Runs.outward = true)
    by (vm_compute; reflexivity).
  assert (Hpos : (0 < LightRay.p_r
                         (@LightRay.entering R Exact.arith Exact.external Runs.exact_ray))%R).
  { cbn [LightRay.entering LightRay.p_r]. rewrite exact_ray_radius. lra. }
  assert (Hout : (1 <= LightRay.p_r
                          (@LightRay.entering R Exact.arith Exact.external Runs.exact_ray))%R).
  { cbn [LightRay.entering LightRay.p_r]. rewrite exact_ray_radius. lra. }
  destruct (@integration_follows_the_specification
              float Binary64.arith AxisLibm.external
              100%float (BlackHole.r_s Runs.sagA) Runs.outward
              Exact.external 2%R 1%R Runs.exact_ray) as [Hany Hexact].
  split; [exact Hlive |]. split; [exact (proj1 (Hany Hlive)) |].
  split; [exact Hpos |]. split; [exact Hout |].
  exact (proj1 (proj2 (Hexact Hpos Hout))).
Defined.

(** ** The speed entering a step *)




Lemma exact_ray_angle :
  @LightRay.angle R Exact.external Runs.exact_ray = 0%R.
Proof.
  cbv [LightRay.angle Runs.exact_ray LightRay.new LightRay.pos x y
       atan2 Exact.external Exact.atan2R].
  destruct (Rlt_dec 0 3) as [_ | Hn]; [| lra].
  replace (0 / 3)%R with 0%R by field. apply atan_0.
Qed.



Section Halted.
Import Binary64 AxisLibm Runs.
Local Open Scope float_scope.

End Halted.

(** ** What a step hands to the next *)

(** C6, as the program has it.  Every call of [Update] derives the radius
    and the angle from the current Cartesian position,
    [hypot(pos.x, pos.y) / VIS_SCALE] and [atan2(pos.y, pos.x)]; the values
    the members [r] and [phi] held do not reach the result.  The rates are
    not carried forward either: the members [dr] and [dphi] are returned as
    they were and reach nothing else of the result, and the rates a step
    starts from are [v_r] and [v_phi / r], computed from the stored
    direction and [c]. *)
Theorem polar_state_is_rederived
  {F : Type} {A : Arith F} {E : External F}
  (dt r_s r0 phi0 dr0 dphi0 : F) (l : LightRay.t F) :
  let l0 := LightRay.mk (LightRay.pos l) (LightRay.dir l) r0 phi0 dr0 dphi0
              (LightRay.path l) in
  LightRay.p_r (LightRay.entering l)
  = div (hypot (x (LightRay.pos l)) (y (LightRay.pos l))) VIS_SCALE
  /\ LightRay.p_phi (LightRay.entering l)
     = atan2 (y (LightRay.pos l)) (x (LightRay.pos l))
  /\ LightRay.dr_dt (LightRay.entering l)
     = mul (addf (mulf (x (LightRay.dir l)) (x (LightRay.r_hat (LightRay.angle l))))
                 (mulf (y (LightRay.dir l)) (y (LightRay.r_hat (LightRay.angle l))))) c
  /\ LightRay.dphi_dt (LightRay.entering l)
     = div (mul (addf (mulf (x (LightRay.dir l))
                            (x (LightRay.phi_hat (LightRay.angle l))))
                      (mulf (y (LightRay.dir l))
                            (y (LightRay.phi_hat (LightRay.angle l))))) c)
           (LightRay.radius l)
  /\ LightRay.dr (LightRay.Update dt r_s l) = LightRay.dr l
  /\ LightRay.dphi (LightRay.Update dt r_s l) = LightRay.dphi l
  /\ LightRay.pos (LightRay.Update dt r_s l0) = LightRay.pos (LightRay.Update dt r_s l)
  /\ LightRay.dir (LightRay.Update dt r_s l0) = LightRay.dir (LightRay.Update dt r_s l)
  /\ LightRay.r (LightRay.Update dt r_s l0) = LightRay.r (LightRay.Update dt r_s l)
  /\ LightRay.phi (LightRay.Update dt r_s l0) = LightRay.phi (LightRay.Update dt r_s l)
  /\ LightRay.path (LightRay.Update dt r_s l0) = LightRay.path (LightRay.Update dt r_s l).
Proof.
  intros l0. repeat (split; [reflexivity |]).
  assert (Hd : forall k, LightRay.dr (LightRay.Update dt r_s k) = LightRay.dr k
                         /\ LightRay.dphi (LightRay.Update dt r_s k) = LightRay.dphi k).
  { intros k. unfold LightRay.Update. cbn [LightRay.r LightRay.rederive].
    destruct (leb (LightRay.radius k) (dec 0 0)); [split; reflexivity |].
    destruct (ltb (LightRay.radius k) r_s); split; reflexivity. }
  split; [apply Hd |]. split; [apply Hd |].
  unfold LightRay.Update. cbn [LightRay.r LightRay.rederive].
  change (LightRay.radius l0) with (LightRay.radius l).
  change (LightRay.entering (LightRay.rederive l0))
    with (LightRay.entering (LightRay.rederive l)).
  destruct (leb (LightRay.radius l) (dec 0 0)); [repeat split |].
  destruct (ltb (LightRay.radius l) r_s); repeat split.
Qed.

Section Carried.
Import Binary64 AxisLibm Runs.
Local Open Scope float_scope.

(** The photon 800 pixels out, stepped by [dt = 100]: the step leaves the
    radial rate 296586281.1..., the next step starts from 299792448, and
    the member [dr] is still 0. *)
Lemma rates_are_not_carried_forward :
  let rs := BlackHole.r_s sagA in
  let after := LightRay.Update 100 rs outward in
  LightRay.live rs outward = true
  /\ LightRay.live rs after = true
  /\ LightRay.dr_dt (LightRay.entering after)
     <> LightRay.dr_dt (LightRay.integrate 100 rs (LightRay.entering outward))
  /\ LightRay.dr after
     <> LightRay.dr_dt (LightRay.integrate 100 rs (LightRay.entering outward)).
Proof.
  cbv zeta.
  split; [vm_compute; reflexivity |].
  split; [vm_compute; reflexivity |].
  split; float_neq.
Qed.
End Carried.

(** * Further properties of the program *)

(** ** Runs of the world and of a photon *)

Section MoreRuns.
Context {F : Type} `{Arith F} `{External F}.

Lemma Update_stopped (dt r_s : F) (l : LightRay.t F) :
  LightRay.live r_s l = false -> LightRay.Update dt r_s l = LightRay.rederive l.
Proof.
  intros Hl. unfold LightRay.live in Hl.
  apply andb_false_iff in Hl as [Hl | Hl]; apply negb_false_iff in Hl.
  - now apply Update_zero.
  - now apply Update_absorbed.
Qed.

Lemma live_rederive (r_s : F) (l : LightRay.t F) :
  LightRay.live r_s (LightRay.rederive l) = LightRay.live r_s l.
Proof. reflexivity. Qed.

(** The position is the point the path ends with: kept by every call. *)
Lemma Update_path_ends_at_pos (dt r_s : F) (l : LightRay.t F) :
  (exists before, LightRay.path l = before ++ [LightRay.pos l]) ->
  exists before,
    LightRay.path (LightRay.Update dt r_s l)
    = before ++ [LightRay.pos (LightRay.Update dt r_s l)].
Proof.
  intros [before Hp]. destruct (LightRay.live r_s l) eqn:Hl.
  - exists (LightRay.path l). now rewrite Update_path, Hl.
  - exists before. now rewrite (Update_stopped dt r_s l Hl).
Qed.

Lemma run_path_ends_at_pos (r_s : F) (dts : list F) (l : LightRay.t F) :
  (exists before, LightRay.path l = before ++ [LightRay.pos l]) ->
  exists before,
    LightRay.path (LightRay.run r_s dts l)
    = before ++ [LightRay.pos (LightRay.run r_s dts l)].
Proof.
  revert l. induction dts as [| dt dts IH]; intros l Hl; [exact Hl |].
  rewrite run_cons. apply IH. now apply Update_path_ends_at_pos.
Qed.
End MoreRuns.

(** X1. Over any run of steps the world keeps its photons apart and in
    place: each photon's state is the run of [LightRay.Update] on its own
    initial state with the black hole's Schwarzschild radius, so no photon
    is added, removed or moved in the collection, absorbed or not; the
    centre is kept too. *)
Theorem world_run_is_per_photon
  {F : Type} {A : Arith F} {E : External F}
  (dts : list F) (s : Simulation.t F) :
  Simulation.lightRays (Simulation.steps dts s)
  = map (LightRay.run (BlackHole.r_s (Simulation.blackHole s)) dts)
        (Simulation.lightRays s)
  /\ length (Simulation.lightRays (Simulation.steps dts s))
     = length (Simulation.lightRays s)
  /\ Simulation.center (Simulation.steps dts s) = Simulation.center s.
Proof.
  assert (Hrays : forall dts s,
             Simulation.lightRays (Simulation.steps dts s)
             = map (LightRay.run (BlackHole.r_s (Simulation.blackHole s)) dts)
                   (Simulation.lightRays s)).
  { clear dts s. induction dts as [| dt dts IH]; intros s.
    - cbn. now rewrite map_id.
    - rewrite steps_cons, IH. cbn [Simulation.Update Simulation.lightRays
                                     Simulation.blackHole].
      rewrite update_rays_map, map_map. reflexivity. }
  split; [apply Hrays |]. split; [now rewrite Hrays, length_map |].
  revert s. induction dts as [| dt dts IH]; intros s; [reflexivity |].
  now rewrite steps_cons, IH.
Qed.

(** X2. After any run of calls on a photon made by the constructor, the
    path is not empty and its last point is the photon's current position:
    a stopped call changes neither, a call that integrates appends the
    position it stores. *)
Theorem position_is_last_path_point
  {F : Type} {A : Arith F} {E : External F}
  (r_s : F) (dts : list F) (position direction : Vector2 F) :
  let l := LightRay.run r_s dts (LightRay.new position direction) in
  LightRay.path l <> []
  /\ last (LightRay.path l) position = LightRay.pos l.
Proof.
  cbv zeta.
  destruct (run_path_ends_at_pos r_s dts (LightRay.new position direction))
    as [before Hp]; [now exists [] |].
  rewrite Hp. split; [now destruct before | apply last_last].
Qed.

(** X3. A call that either guard stops is idempotent and blind to [dt]:
    a second call, with any other time step, gives the state of the first,
    which is the photon with its members [r] and [phi] set to the radius
    and angle of its position. *)
Theorem stopped_call_is_idempotent
  {F : Type} {A : Arith F} {E : External F}
  (dt1 dt2 r_s : F) (l : LightRay.t F) :
  LightRay.live r_s l = false ->
  LightRay.Update dt2 r_s (LightRay.Update dt1 r_s l) = LightRay.Update dt1 r_s l
  /\ LightRay.Update dt2 r_s l = LightRay.Update dt1 r_s l
  /\ LightRay.r (LightRay.Update dt1 r_s l) = LightRay.radius l
  /\ LightRay.phi (LightRay.Update dt1 r_s l) = LightRay.angle l.
Proof.
  intros Hl. rewrite (Update_stopped dt1 r_s l Hl), (Update_stopped dt2 r_s l Hl).
  rewrite Update_stopped by (now rewrite live_rederive).
  repeat split.
Qed.

Section MoreAxisRuns.
Import Binary64 AxisLibm Runs.
Local Open Scope float_scope.

Lemma stopped_call_is_idempotent_witness :
  LightRay.live (BlackHole.r_s sagA) inside = false
  /\ LightRay.Update (-3) (BlackHole.r_s sagA)
       (LightRay.Update 100 (BlackHole.r_s sagA) inside)
     = LightRay.Update 100 (BlackHole.r_s sagA) inside.
Proof.
  assert (Hl : LightRay.live (BlackHole.r_s sagA) inside = false)
    by (vm_compute; reflexivity).
  split; [exact Hl |].
  exact (proj1 (stopped_call_is_idempotent 100 (-3) (BlackHole.r_s sagA) inside Hl)).
Defined.
End MoreAxisRuns.

(** ** The guards on doubles *)

Lemma float_leb_nan (b : float) : PrimFloat.leb nan b = false.
Proof. rewrite leb_spec. reflexivity. Qed.

Lemma float_ltb_nan (b : float) : PrimFloat.ltb nan b = false.
Proof. rewrite ltb_spec. reflexivity. Qed.

(** Below something that is not positive is not positive. *)
Lemma float_ltb_leb_zero (a b : float) :
  PrimFloat.ltb a b = true -> PrimFloat.leb b 0%float = true ->
  PrimFloat.leb a 0%float = true.
Proof.
  rewrite ltb_spec, !leb_spec.
  change (Prim2SF 0%float) with (S754_zero false).
  unfold SFltb, SFleb.
  destruct (Prim2SF a) as [sa | sa | | sa ma ea];
    destruct (Prim2SF b) as [sb | sb | | sb mb eb];
    cbn; try destruct sa; try destruct sb; cbn;
    intros Hab Hb; try discriminate; reflexivity.
Qed.

Section DoubleGuards.
Import Binary64.
Context {E : External float}.

(** X4. A radius that is NaN passes both guards, whatever the
    Schwarzschild radius: the comparisons [r <= 0] and [r < r_s] are both
    false, the photon is integrated and its path grows by one point. *)
Theorem nan_radius_is_integrated (dt r_s : float) (l : LightRay.t float) :
  LightRay.radius l = nan ->
  LightRay.live r_s l = true
  /\ LightRay.Update dt r_s l
     = LightRay.store (LightRay.rederive l)
         (LightRay.integrate dt r_s (LightRay.entering l))
  /\ LightRay.path (LightRay.Update dt r_s l)
     = LightRay.path l ++ [LightRay.pos (LightRay.Update dt r_s l)].
Proof.
  intros Hnan.
  assert (Hl : LightRay.live r_s l = true).
  { unfold LightRay.live. rewrite Hnan. cbn [leb ltb arith].
    now rewrite float_leb_nan, float_ltb_nan. }
  split; [exact Hl |]. split; [exact (Update_live dt r_s l Hl) |].
  now rewrite Update_path, Hl.
Qed.

(** X5. A Schwarzschild radius that is not positive absorbs nothing: a
    radius below it is not positive either, so the first guard has
    already returned, and every photon that passes the first guard is
    integrated. *)
Theorem nonpositive_horizon_absorbs_nothing (r_s : float) (l : LightRay.t float) :
  PrimFloat.leb r_s 0%float = true ->
  (ltb (LightRay.radius l) r_s = true -> leb (LightRay.radius l) (dec 0 0) = true)
  /\ (leb (LightRay.radius l) (dec 0 0) = false -> LightRay.live r_s l = true).
Proof.
  intros Hrs.
  assert (Hbelow : ltb (LightRay.radius l) r_s = true ->
                   leb (LightRay.radius l) (dec 0 0) = true).
  { intros Hlt. change (@dec float arith 0 0) with 0%float.
    exact (float_ltb_leb_zero _ _ Hlt Hrs). }
  split; [exact Hbelow |].
  intros Hz. unfold LightRay.live. rewrite Hz. cbn [negb andb].
  destruct (ltb (LightRay.radius l) r_s) eqn:Hlt; [| reflexivity].
  rewrite (Hbelow eq_refl) in Hz. discriminate Hz.
Qed.
End DoubleGuards.

Section DoubleGuardRuns.
Import Binary64 AxisLibm Runs.
Local Open Scope float_scope.

Lemma nan_radius_is_integrated_witness :
  LightRay.radius (LightRay.new (vec2 nan 0) (vec2 1 0)) = nan
  /\ LightRay.live (BlackHole.r_s sagA) (LightRay.new (vec2 nan 0) (vec2 1 0)) = true.
Proof.
  assert (Hnan : LightRay.radius (LightRay.new (vec2 nan 0) (vec2 1 0)) = nan)
    by (vm_compute; reflexivity).
  split; [exact Hnan |].
  exact (proj1 (nan_radius_is_integrated 100 (BlackHole.r_s sagA)
                  (LightRay.new (vec2 nan 0) (vec2 1 0)) Hnan)).
Defined.

Lemma nonpositive_horizon_absorbs_nothing_witness :
  PrimFloat.leb (BlackHole.r_s (BlackHole.new (vec2 0 0) 0)) 0 = true
  /\ leb (LightRay.radius inside) (dec 0 0) = false
  /\ LightRay.live (BlackHole.r_s (BlackHole.new (vec2 0 0) 0)) inside = true.
Proof.
  assert (Hrs : PrimFloat.leb (BlackHole.r_s (BlackHole.new (vec2 0 0) 0)) 0 = true)
    by (vm_compute; reflexivity).
  assert (Hz : leb (LightRay.radius inside) (dec 0 0) = false)
    by (vm_compute; reflexivity).
  split; [exact Hrs |]. split; [exact Hz |].
  exact (proj2 (nonpositive_horizon_absorbs_nothing
                  (BlackHole.r_s (BlackHole.new (vec2 0 0) 0)) inside Hrs) Hz).
Defined.
End DoubleGuardRuns.

(** ** The integration step in exact arithmetic: three regimes *)

(** X6. In exact arithmetic, a photon that passes the guards with no
    tangential velocity keeps its angle: the step stores the angle of its
    position in [phi], leaves the angular rate 0, and changes the radial
    rate by [-(r_s·c²)/(2r²)·dt] only. *)
Theorem radial_photon_keeps_its_angle
  {E : External R} (dt r_s : R) (l : LightRay.t R) :
  (0 < @LightRay.radius R Exact.arith E l)%R ->
  (r_s <= @LightRay.radius R Exact.arith E l)%R ->
  @LightRay.v_phi R Exact.arith E l = 0%R ->
  let next := @LightRay.integrate R Exact.arith dt r_s
                (@LightRay.entering R Exact.arith E l) in
  LightRay.phi (@LightRay.Update R Exact.arith E dt r_s l) = @LightRay.angle R E l
  /\ LightRay.dphi_dt next = 0%R
  /\ LightRay.dr_dt next
     = (@LightRay.v_r R Exact.arith E l
        - r_s * 299792458 ^ 2 / (2 * @LightRay.radius R Exact.arith E l ^ 2) * dt)%R
  /\ LightRay.r (@LightRay.Update R Exact.arith E dt r_s l)
     = (@LightRay.radius R Exact.arith E l + LightRay.dr_dt next * dt)%R.
Proof.
  intros Hpos Hout Hphi next.
  assert (Hlive : @LightRay.live R Exact.arith E r_s l = true)
    by (apply exact_live; split; assumption).
  rewrite (Update_live dt r_s l Hlive).
  cbn [LightRay.phi LightRay.r LightRay.store]. fold next.
  assert (Hnext : next = Spec.GeodesicIntegrator r_s dt
                           (@LightRay.entering R Exact.arith E l))
    by (apply exact_integrate; exact Hpos).
  rewrite Hnext. unfold Spec.GeodesicIntegrator.
  cbn [LightRay.entering LightRay.p_r LightRay.p_phi LightRay.dr_dt LightRay.dphi_dt].
  destruct (Rle_dec (LightRay.radius l) 0) as [Hle | _]; [lra |].
  cbv zeta. cbn [LightRay.p_r LightRay.p_phi LightRay.dr_dt LightRay.dphi_dt].
  rewrite Hphi. cbn [div Exact.arith]. unfold Spec.c.
  repeat split; field; lra.
Qed.

(** X7. In exact arithmetic, with a Schwarzschild radius of 0 the step
    uses the accelerations of uniform straight-line motion written in
    polar coordinates, [r·(dφ/dt)²] and [−2·(dr/dt)·(dφ/dt)/r]: the terms
    in [r_s] vanish and [c] cancels. *)
Theorem flat_space_limit (dt : R) (p : LightRay.polar R) :
  (0 < LightRay.p_r p)%R ->
  let next := @LightRay.integrate R Exact.arith dt 0%R p in
  LightRay.dr_dt next
  = (LightRay.dr_dt p + LightRay.p_r p * LightRay.dphi_dt p ^ 2 * dt)%R
  /\ LightRay.dphi_dt next
     = (LightRay.dphi_dt p
        + - 2 * LightRay.dr_dt p * LightRay.dphi_dt p / LightRay.p_r p * dt)%R
  /\ LightRay.p_r next = (LightRay.p_r p + LightRay.dr_dt next * dt)%R
  /\ LightRay.p_phi next = (LightRay.p_phi p + LightRay.dphi_dt next * dt)%R.
Proof.
  intros Hpos next. unfold next. rewrite (exact_integrate dt 0 p Hpos).
  unfold Spec.GeodesicIntegrator.
  destruct (Rle_dec (LightRay.p_r p) 0) as [Hle | _]; [lra |].
  cbv zeta. cbn [LightRay.p_r LightRay.p_phi LightRay.dr_dt LightRay.dphi_dt].
  unfold Spec.c. repeat split; field; lra.
Qed.

(** X8. In exact arithmetic, a photon moving tangentially at speed [c]
    ([dr/dt = 0], [dφ/dt = c/r]) gets the radial rate
    [(c²/r)·(1 − 2·r_s/r)·dt] and keeps its angular rate: at [r = 2·r_s]
    the step leaves it on its circle, with the radial rate 0 and the
    radius unchanged. *)
Theorem tangential_photon_balance (dt r_s : R) (p : LightRay.polar R) :
  (0 < LightRay.p_r p)%R ->
  LightRay.dr_dt p = 0%R ->
  LightRay.dphi_dt p = (299792458 / LightRay.p_r p)%R ->
  let next := @LightRay.integrate R Exact.arith dt r_s p in
  LightRay.dr_dt next
  = (299792458 ^ 2 / LightRay.p_r p * (1 - 2 * r_s / LightRay.p_r p) * dt)%R
  /\ LightRay.dphi_dt next = LightRay.dphi_dt p
  /\ (LightRay.p_r p = (2 * r_s)%R ->
      LightRay.dr_dt next = 0%R /\ LightRay.p_r next = LightRay.p_r p).
Proof.
  intros Hpos Hdr Hdphi next. unfold next.
  rewrite (exact_integrate dt r_s p Hpos). unfold Spec.GeodesicIntegrator.
  destruct (Rle_dec (LightRay.p_r p) 0) as [Hle | _]; [lra |].
  cbv zeta. cbn [LightRay.p_r LightRay.p_phi LightRay.dr_dt LightRay.dphi_dt].
  rewrite Hdr, Hdphi. unfold Spec.c.
  assert (Hrate : (0 + (- (r_s * 299792458 ^ 2) / (2 * LightRay.p_r p ^ 2)
                        + (LightRay.p_r p ^ 2 * (299792458 / LightRay.p_r p) / 299792458) ^ 2
                          * 299792458 ^ 2 / LightRay.p_r p ^ 3
                        - 3 * r_s
                          * (LightRay.p_r p ^ 2 * (299792458 / LightRay.p_r p) / 299792458) ^ 2
                          * 299792458 ^ 2 / (2 * LightRay.p_r p ^ 4)) * dt
                   = 299792458 ^ 2 / LightRay.p_r p
                     * (1 - 2 * r_s / LightRay.p_r p) * dt)%R)
    by (field; lra).
  split; [exact Hrate |]. split; [field; lra |].
  intros Hr. rewrite Hrate. rewrite Hr in *.
  split; field; lra.
Qed.

Lemma exact_ray_v_phi :
  @LightRay.v_phi R Exact.arith Exact.external Runs.exact_ray = 0%R.
Proof.
  unfold LightRay.v_phi, LightRay.phi_hat. rewrite exact_ray_angle, exact_c.
  cbv [addf mulf add mul neg to_float Exact.arith x y cos sin Exact.external
       LightRay.dir Runs.exact_ray LightRay.new].
  rewrite cos_0, sin_0. ring.
Qed.

Lemma radial_photon_keeps_its_angle_witness :
  (0 < @LightRay.radius R Exact.arith Exact.external Runs.exact_ray)%R
  /\ (1 <= @LightRay.radius R Exact.arith Exact.external Runs.exact_ray)%R
  /\ @LightRay.v_phi R Exact.arith Exact.external Runs.exact_ray = 0%R
  /\ LightRay.phi (@LightRay.Update R Exact.arith Exact.external 2%R 1%R Runs.exact_ray)
     = @LightRay.angle R Exact.external Runs.exact_ray.
Proof.
  assert (Hpos : (0 < @LightRay.radius R Exact.arith Exact.external Runs.exact_ray)%R)
    by (rewrite exact_ray_radius; lra).
  assert (Hout : (1 <= @LightRay.radius R Exact.arith Exact.external Runs.exact_ray)%R)
    by (rewrite exact_ray_radius; lra).
  split; [exact Hpos |]. split; [exact Hout |]. split; [exact exact_ray_v_phi |].
  exact (proj1 (@radial_photon_keeps_its_angle Exact.external 2%R 1%R Runs.exact_ray
                  Hpos Hout exact_ray_v_phi)).
Defined.

Lemma flat_space_limit_witness :
  (0 < LightRay.p_r (LightRay.mkpolar 2 0 3 5))%R
  /\ LightRay.dr_dt (@LightRay.integrate R Exact.arith 1%R 0%R (LightRay.mkpolar 2 0 3 5)%R)
     = (3 + 2 * 5 ^ 2 * 1)%R.
Proof.
  assert (Hpos : (0 < LightRay.p_r (LightRay.mkpolar 2 0 3 5))%R) by (cbn; lra).
  split; [exact Hpos |].
  exact (proj1 (flat_space_limit 1%R (LightRay.mkpolar 2 0 3 5)%R Hpos)).
Defined.

Lemma tangential_photon_balance_witness :
  (0 < LightRay.p_r (LightRay.mkpolar 2 0 0 (299792458 / 2)))%R
  /\ LightRay.p_r (LightRay.mkpolar 2 0 0 (299792458 / 2))%R = (2 * 1)%R
  /\ LightRay.dr_dt (@LightRay.integrate R Exact.arith 7%R 1%R
                       (LightRay.mkpolar 2 0 0 (299792458 / 2))%R) = 0%R.
Proof.
  assert (Hpos : (0 < LightRay.p_r (LightRay.mkpolar 2 0 0 (299792458 / 2)))%R)
    by (cbn; lra).
  assert (Hr : LightRay.p_r (LightRay.mkpolar 2 0 0 (299792458 / 2))%R = (2 * 1)%R)
    by (cbn; lra).
  split; [exact Hpos |]. split; [exact Hr |].
  destruct (tangential_photon_balance 7%R 1%R
              (LightRay.mkpolar 2 0 0 (299792458 / 2))%R Hpos eq_refl eq_refl)
    as (_ & _ & Hcircle).
  exact (proj1 (Hcircle Hr)).
Defined.

(** ** Drawing *)

Section Drawing.
Context {F : Type} `{Arith F} `{External F} `{Render.Native F}.
Import Render.




Lemma draw_ray_empty (center : Vector2 F) (lr : LightRay.t F) :
  LightRay.path lr = [] -> draw_ray center lr = Undefined.
Proof. intros Hp. unfold draw_ray. rewrite Hp. reflexivity. Qed.


Lemma within_size_t_Update (n : nat) (dt r_s : F) (rays : list (LightRay.t F)) :
  within_size_t (S n) rays -> within_size_t n (map (LightRay.Update dt r_s) rays).
Proof.
  unfold within_size_t. rewrite Forall_map. apply Forall_impl.
  intros lr [Hne Hsize]. rewrite Update_path. split.
  - destruct (LightRay.path lr); [contradiction | discriminate].
  - rewrite length_app. destruct (LightRay.live r_s lr); cbn [length]; lia.
Qed.

End Drawing.

Section DrawingMore.
Context {F : Type} `{Arith F} `{External F} `{Render.Native F}.
Import Render.



(** The fuel [draw_ray] gives the loop is enough, whatever the path. *)
Lemma lines_fuel (center : Vector2 F) (path : list (Vector2 F)) (fuel : nat) (i : Z) :
  (0 <= i)%Z -> length path - Z.to_nat i < fuel ->
  lines fuel i center path <> OutOfFuel.
Proof.
  revert i. induction fuel as [| fuel IH]; intros i Hi Hfuel; [lia |].
  cbn [lines].
  destruct (i <? size_sub1 (Z.of_nat (length path)))%Z; [| discriminate].
  destruct (nth_error path (Z.to_nat i)) as [a |] eqn:Ha; [| discriminate].
  destruct (nth_error path (Z.to_nat (i + 1))) as [b |] eqn:Hb; [| discriminate].
  assert (Hlen : Z.to_nat (i + 1) < length path)
    by (apply nth_error_Some; congruence).
  specialize (IH (i + 1)%Z ltac:(lia) ltac:(lia)).
  destruct (lines fuel (i + 1) center path); cbn [bind]; congruence.
Qed.

Lemma draw_rays_fuel (center : Vector2 F) (rays : list (LightRay.t F)) :
  draw_rays center rays <> OutOfFuel.
Proof.
  induction rays as [| lr rays IH]; [discriminate |].
  cbn [draw_rays]. unfold draw_ray.
  pose proof (lines_fuel center (LightRay.path lr) (S (length (LightRay.path lr))) 0%Z
                ltac:(lia) ltac:(cbn; lia)) as Hlr.
  destruct (lines (S (length (LightRay.path lr))) 0 center (LightRay.path lr));
    cbn [bind]; try congruence.
  destruct (draw_rays center rays); cbn [bind]; congruence.
Qed.

Lemma draw_rays_empty_path (center : Vector2 F) (rays : list (LightRay.t F)) :
  Exists (fun lr => LightRay.path lr = []) rays ->
  draw_rays center rays = Undefined.
Proof.
  induction 1 as [lr rays Hp | lr rays Hrest IH]; cbn [draw_rays].
  - now rewrite (draw_ray_empty center lr Hp).
  - rewrite IH. pose proof (draw_rays_fuel center [lr]) as Hlr.
    cbn [draw_rays] in Hlr.
    destruct (draw_ray center lr); cbn [bind] in *; congruence.
Qed.

Lemma within_size_t_steps (n : nat) (dts : list F) (s : Simulation.t F) :
  within_size_t (length dts + n) (Simulation.lightRays s) ->
  within_size_t n (Simulation.lightRays (Simulation.steps dts s)).
Proof.
  revert s. induction dts as [| dt dts IH]; intros s Hs; [exact Hs |].
  rewrite steps_cons. apply IH.
  cbn [Simulation.Update Simulation.lightRays]. rewrite update_rays_map.
  apply within_size_t_Update. exact Hs.
Qed.
End DrawingMore.


(** X10. [Draw] of a world in which some photon's path is empty is
    undefined: [path.size() - 1] wraps to [2^64 - 1], the loop is entered
    and reads [path[0]].  The fuel of the model is never what ends
    [Draw]. *)
Theorem draw_of_an_empty_path_is_undefined
  {F : Type} {A : Arith F} {E : External F} {N : Render.Native F}
  (s : Simulation.t F) :
  Render.Draw s <> OutOfFuel
  /\ (Exists (fun lr => LightRay.path lr = []) (Simulation.lightRays s) ->
      Render.Draw s = Undefined).
Proof.
  split.
  - unfold Render.Draw.
    pose proof (draw_rays_fuel (Simulation.center s) (Simulation.lightRays s)) as Hf.
    destruct (Render.draw_rays (Simulation.center s) (Simulation.lightRays s));
      cbn [bind]; congruence.
  - intros Hex. unfold Render.Draw.
    now rewrite (draw_rays_empty_path (Simulation.center s) _ Hex).
Qed.

Section DrawingRuns.
Import Binary64 AxisLibm Binary64Draw.


Lemma draw_of_an_empty_path_is_undefined_witness :
  Exists (fun lr => LightRay.path lr = []) (Simulation.lightRays emptied)
  /\ Render.Draw emptied = Undefined.
Proof.
  assert (Hex : Exists (fun lr => LightRay.path lr = []) (Simulation.lightRays emptied))
    by (apply Exists_cons_tl, Exists_cons_hd; reflexivity).
  split; [exact Hex |].
  exact (proj2 (draw_of_an_empty_path_is_undefined emptied) Hex).
Defined.
End DrawingRuns.

(** ** The main loop *)

Section MainLoop.
Context {F : Type} `{Arith F} `{External F} `{Render.Native F}.
Import Render.



End MainLoop.



(** X13. In exact arithmetic, the value the fade converts to each colour
    channel, [255 * (i / (N - 1) - 1)], is negative for every line of a
    path of [N] points: it is [-255] for the first line and stays in
    [-255, 0), so no line gets a channel converted from a positive
    value. *)
Theorem fade_is_never_positive (i N : Z) :
  (0 <= i < N - 1)%Z -> (N <= 2 ^ 64)%Z ->
  (- 255 <= @Render.fade_value R Exact.arith i N < 0)%R
  /\ @Render.fade_value R Exact.arith 0 N = (- 255)%R.
Proof.
  intros Hi HN.
  unfold Render.fade_value.
  rewrite !exact_int.
  unfold Render.size_sub1. rewrite Z.mod_small by lia.
  cbv [divf mulf Render.subf div mul sub to_float Exact.arith].
  assert (Hd : (0 < IZR (N - 1))%R) by (apply IZR_lt; lia).
  assert (Hn0 : (0 <= IZR i)%R) by (apply IZR_le; lia).
  assert (Hn1 : (IZR i < IZR (N - 1))%R) by (apply IZR_lt; lia).
  set (d := IZR (N - 1)) in *. set (n := IZR i) in *.
  assert (Hq0 : (0 <= n / d)%R).
  { apply Rmult_le_pos; [exact Hn0 |]. left. now apply Rinv_0_lt_compat. }
  assert (Hq1 : (n / d < 1)%R).
  { apply (Rmult_lt_reg_r d); [exact Hd |].
    replace (n / d * d)%R with n by (field; lra). lra. }
  split; [lra |]. unfold Rdiv. rewrite Rmult_0_l. lra.
Qed.

Section MainLoopRuns.
Import Binary64 AxisLibm Binary64Draw.


End MainLoopRuns.

Lemma fade_is_never_positive_witness :
  (0 <= 1 < 3 - 1)%Z /\ (3 <= 2 ^ 64)%Z
  /\ (- 255 <= @Render.fade_value R Exact.arith 1 3 < 0)%R.
Proof.
  assert (Hi : (0 <= 1 < 3 - 1)%Z) by lia.
  assert (HN : (3 <= 2 ^ 64)%Z) by (vm_compute; discriminate).
  split; [exact Hi |]. split; [exact HN |].
  exact (proj1 (fade_is_never_positive 1 3 Hi HN)).
Defined.

(** * The straight-line version *)

(** ** Seeding the rays *)

Section Seeding.
Context {F : Type} `{Arith F} `{Legacy.Raymath F}.
Import Legacy.Simulation.

(** With a step of 0 the loop of [Init] never ends. *)
Lemma seed_stalls (fuel : nat) (i height : Z) (rays : list (Legacy.LightRay.t F)) :
  (0 <= i < height)%Z -> (height <= Legacy.INT_MAX)%Z ->
  seed fuel i 0 height rays = OutOfFuel.
Proof.
  intros Hi Hmax. revert rays. induction fuel as [| fuel IH]; intros rays;
    [reflexivity |].
  cbn [seed]. replace (i <? height)%Z with true by (symmetry; apply Z.ltb_lt; lia).
  change (Z.quot 0 2) with 0%Z. rewrite !Z.add_0_r.
  replace (Legacy.in_int i) with true.
  - cbn [andb]. apply IH.
  - symmetry. unfold Legacy.in_int, Legacy.INT_MIN, Legacy.INT_MAX in *.
    apply andb_true_iff. split; apply Z.leb_le; lia.
Qed.

(** With a positive step the loop ends after the [n] iterations that
    reach [height], provided no index leaves [int]. *)
Lemma seed_count (n : nat) (fuel : nat) (i step height : Z)
      (rays : list (Legacy.LightRay.t F)) :
  (0 < step)%Z -> (0 <= i)%Z ->
  (height <= i + Z.of_nat n * step)%Z ->
  (n <> 0%nat -> (i + (Z.of_nat n - 1) * step < height)%Z) ->
  (i + Z.of_nat n * step <= Legacy.INT_MAX)%Z ->
  n < fuel ->
  seed fuel i step height rays
  = Done (rays ++ map (fun k => ray_at (i + Z.of_nat k * step) step) (seq 0 n)).
Proof.
  revert fuel i rays. induction n as [| n IH]; intros fuel i rays Hstep Hi Hup Hlow Hmax Hfuel.
  - destruct fuel as [| fuel]; [lia |]. cbn [seed].
    replace (i <? height)%Z with false by (symmetry; apply Z.ltb_ge; lia).
    cbn. now rewrite app_nil_r.
  - destruct fuel as [| fuel]; [lia |]. cbn [seed].
    specialize (Hlow ltac:(discriminate)).
    replace (i <? height)%Z with true by (symmetry; apply Z.ltb_lt; nia).
    assert (Hhalf : (0 <= Z.quot step 2 <= step)%Z).
    { rewrite Z.quot_div_nonneg by lia.
      pose proof (Z.div_pos step 2 ltac:(lia) ltac:(lia)).
      pose proof (Z.div_le_upper_bound step 2 step ltac:(lia) ltac:(lia)). lia. }
    replace (Legacy.in_int (i + Z.quot step 2) && Legacy.in_int (i + step)) with true.
    + rewrite (IH fuel (i + step)%Z); try lia; try nia.
      rewrite <- app_assoc. f_equal. cbn [app seq map].
      rewrite Z.mul_0_l, Z.add_0_r.
      rewrite <- seq_shift, map_map. do 2 f_equal.
      apply map_ext. intros k. f_equal. lia.
    + symmetry. unfold Legacy.in_int, Legacy.INT_MIN, Legacy.INT_MAX in *.
      rewrite !andb_true_iff. repeat split; apply Z.leb_le; nia.
Qed.
End Seeding.

(** X14. [Init] on a height of at least 20 rows (and small enough that no
    index leaves [int]) returns: it adds the black hole and one ray per
    value of [i = 0, step, 2·step, ...] below [height], with
    [step = height / 20], each at [(0, i + step / 2)] heading right.  That
    is between 20 and 39 rays, and exactly 20 when 20 divides the
    height. *)
Theorem init_seeds_a_ray_per_step
  {F : Type} {A : Arith F} {M : Legacy.Raymath F}
  (fuel : nat) (width height : Z) (s : Legacy.Simulation.t F) :
  (20 <= height)%Z ->
  (height + Z.quot height 20 <= Legacy.INT_MAX)%Z ->
  let step := Z.quot height 20 in
  let n := Z.to_nat ((height + step - 1) / step) in
  n < fuel ->
  Legacy.Simulation.Init fuel width height s
  = Done (Legacy.Simulation.mk
            (Legacy.Simulation.blackHoles s
             ++ [BlackHole.new
                   (vec2 (divf (to_float (dec width 0)) (to_float (dec 2 0)))
                         (divf (to_float (dec height 0)) (to_float (dec 2 0))))
                   (dec 854 34)])
            (Legacy.Simulation.lightRays s
             ++ map (fun k => Legacy.Simulation.ray_at (Z.of_nat k * step) step)
                    (seq 0 n)))
  /\ 20 <= n <= 39
  /\ ((height mod 20 = 0)%Z -> n = 20).
Proof.
  intros Hh Hmax step n Hfuel.
  assert (Hstep : step = (height / 20)%Z) by (apply Z.quot_div_nonneg; lia).
  pose proof (Z.div_mod height 20 ltac:(lia)) as Hdm.
  pose proof (Z.mod_pos_bound height 20 ltac:(lia)) as Hmb.
  assert (Hpos : (1 <= step)%Z) by lia.
  set (q := ((height + step - 1) / step)%Z) in *.
  pose proof (Z.div_mod (height + step - 1) step ltac:(lia)) as Hq.
  pose proof (Z.mod_pos_bound (height + step - 1) step ltac:(lia)) as Hqb.
  fold q in Hq.
  assert (Hq0 : (0 <= q)%Z) by (apply Z.div_pos; lia).
  assert (Hn : Z.of_nat n = q) by (unfold n; lia).
  split; [| split].
  - unfold Legacy.Simulation.Init. cbv zeta. fold step.
    rewrite (seed_count n fuel 0 step height) by (try lia; nia).
    reflexivity.
  - nia.
  - intros Hmod. nia.
Qed.

(** X15. [Init] on a height that is not positive adds the black hole and
    no ray.  On a height from 1 to 19 it never returns: the step
    [height / 20] is 0, so the loop index stays at 0, below the height,
    and the loop keeps adding rays. *)
Theorem init_never_returns_below_twenty_rows
  {F : Type} {A : Arith F} {M : Legacy.Raymath F}
  (fuel : nat) (width height : Z) (s : Legacy.Simulation.t F) :
  ((height <= 0)%Z ->
   Legacy.Simulation.Init (S fuel) width height s
   = Done (Legacy.Simulation.mk
             (Legacy.Simulation.blackHoles s
              ++ [BlackHole.new
                    (vec2 (divf (to_float (dec width 0)) (to_float (dec 2 0)))
                          (divf (to_float (dec height 0)) (to_float (dec 2 0))))
                    (dec 854 34)])
             (Legacy.Simulation.lightRays s)))
  /\ ((0 < height < 20)%Z ->
      Legacy.Simulation.Init fuel width height s = OutOfFuel).
Proof.
  split.
  - intros Hh. unfold Legacy.Simulation.Init. cbv zeta. cbn [Legacy.Simulation.seed].
    replace (0 <? height)%Z with false by (symmetry; apply Z.ltb_ge; lia).
    reflexivity.
  - intros Hh. unfold Legacy.Simulation.Init. cbv zeta.
    rewrite Z.quot_small by lia.
    rewrite seed_stalls; [reflexivity | lia |].
    unfold Legacy.INT_MAX. lia.
Qed.

Section SeedingRuns.
Import Binary64 LegacyRuns.

Lemma init_seeds_a_ray_per_step_witness :
  (20 <= 900)%Z /\ (900 + Z.quot 900 20 <= Legacy.INT_MAX)%Z
  /\ exists s,
       Legacy.Simulation.Init 21 1600 900 unseeded = Done s
       /\ length (Legacy.Simulation.lightRays s) = 20.
Proof.
  assert (Hh : (20 <= 900)%Z) by lia.
  assert (Hmax : (900 + Z.quot 900 20 <= Legacy.INT_MAX)%Z)
    by (vm_compute; discriminate).
  split; [exact Hh |]. split; [exact Hmax |].
  eexists. split.
  - refine (proj1 (init_seeds_a_ray_per_step 21 1600 900 unseeded Hh Hmax _)).
    vm_compute. lia.
  - vm_compute. reflexivity.
Defined.

Lemma init_never_returns_below_twenty_rows_witness :
  (0 < 19 < 20)%Z /\ Legacy.Simulation.Init 1000 1600 19 unseeded = OutOfFuel.
Proof.
  assert (Hh : (0 < 19 < 20)%Z) by lia.
  split; [exact Hh |].
  exact (proj2 (init_never_returns_below_twenty_rows 1000 1600 19 unseeded) Hh).
Defined.
End SeedingRuns.

(** ** Absorption by a vector of black holes *)

Section LegacyWorld.
Context {F : Type} `{Arith F} `{Legacy.Raymath F}.
Import Legacy.Simulation.

(** The test the inner loop makes for one black hole. *)
Let within (lr : Legacy.LightRay.t F) (bh : BlackHole.t F) : bool :=
  ltb (div (Legacy.Vector2Distance (Legacy.LightRay.pos lr) (BlackHole.pos bh))
           VIS_SCALE)
      (BlackHole.r_s bh).

Lemma absorbed_existsb (bhs : list (BlackHole.t F)) (lr : Legacy.LightRay.t F) :
  absorbed bhs lr = existsb (within lr) bhs.
Proof.
  induction bhs as [| bh bhs IH]; [reflexivity |].
  cbn [absorbed existsb]. fold (within lr bh). rewrite IH.
  now destruct (within lr bh).
Qed.

Lemma existsb_Permutation {A : Type} (f : A -> bool) (l l' : list A) :
  Permutation l l' -> existsb f l = existsb f l'.
Proof.
  induction 1 as [| a l l' _ IH | a b l | l l' l'' _ IH1 _ IH2]; cbn [existsb].
  - reflexivity.
  - now rewrite IH.
  - now destruct (f a), (f b).
  - now rewrite IH1.
Qed.

Lemma legacy_update_rays_map (dt : F) (bhs : list (BlackHole.t F))
      (rays : list (Legacy.LightRay.t F)) :
  update_rays dt bhs rays
  = map (fun lr => if absorbed bhs lr then lr else Legacy.LightRay.Update dt lr) rays.
Proof.
  induction rays as [| lr rays IH]; [reflexivity |].
  cbn [update_rays map]. now rewrite IH.
Qed.

Lemma legacy_steps_cons (dt : F) (dts : list F) (s : t F) :
  steps (dt :: dts) s = steps dts (Update dt s).
Proof. reflexivity. Qed.

Lemma legacy_steps_blackHoles (dts : list F) (s : t F) :
  blackHoles (steps dts s) = blackHoles s.
Proof.
  revert s. induction dts as [| dt dts IH]; intros s; [reflexivity |].
  now rewrite legacy_steps_cons, IH.
Qed.
End LegacyWorld.

(** X16. In the straight-line version a ray is absorbed exactly when some
    black hole of the vector has it within its Schwarzschild radius
    ([distance / VIS_SCALE < r_s]): stopping at the first such black hole
    loses nothing, so one step gives the same rays for any order of the
    black holes, and with no black hole every ray is updated. *)
Theorem absorption_ignores_the_order_of_black_holes
  {F : Type} {A : Arith F} {M : Legacy.Raymath F}
  (dt : F) (bhs bhs' : list (BlackHole.t F))
  (rays : list (Legacy.LightRay.t F)) (lr : Legacy.LightRay.t F) :
  Legacy.Simulation.absorbed bhs lr
  = existsb
      (fun bh =>
         ltb (div (Legacy.Vector2Distance (Legacy.LightRay.pos lr) (BlackHole.pos bh))
                  VIS_SCALE)
             (BlackHole.r_s bh)) bhs
  /\ (Permutation bhs bhs' ->
      Legacy.Simulation.update_rays dt bhs rays
      = Legacy.Simulation.update_rays dt bhs' rays)
  /\ Legacy.Simulation.update_rays dt [] rays = map (Legacy.LightRay.Update dt) rays.
Proof.
  split; [apply absorbed_existsb |]. split.
  - intros Hperm. rewrite !legacy_update_rays_map. apply map_ext. intros r.
    rewrite !absorbed_existsb. now rewrite (existsb_Permutation _ _ _ Hperm).
  - now rewrite legacy_update_rays_map.
Qed.

(** X17. In the straight-line version an absorbed ray stays where it is in
    the vector and as it is, path included, over any run of steps, and the
    black holes are never changed; a ray that is not absorbed is moved by
    the step, its direction kept and its new position appended to its
    path. *)
Theorem absorbed_ray_is_left_as_it_is
  {F : Type} {A : Arith F} {M : Legacy.Raymath F}
  (dts : list F) (dt : F) (bhs : list (BlackHole.t F))
  (rays : list (Legacy.LightRay.t F)) (k : nat) (lr : Legacy.LightRay.t F) :
  nth_error rays k = Some lr ->
  Legacy.Simulation.blackHoles (Legacy.Simulation.steps dts (Legacy.Simulation.mk bhs rays))
  = bhs
  /\ (Legacy.Simulation.absorbed bhs lr = true ->
      nth_error (Legacy.Simulation.lightRays
                   (Legacy.Simulation.steps dts (Legacy.Simulation.mk bhs rays))) k
      = Some lr)
  /\ (Legacy.Simulation.absorbed bhs lr = false ->
      exists lr',
        nth_error (Legacy.Simulation.lightRays
                     (Legacy.Simulation.Update dt (Legacy.Simulation.mk bhs rays))) k
        = Some lr'
        /\ Legacy.LightRay.dir lr' = Legacy.LightRay.dir lr
        /\ Legacy.LightRay.path lr'
           = Legacy.LightRay.path lr ++ [Legacy.LightRay.pos lr']).
Proof.
  intros Hk. split; [apply legacy_steps_blackHoles |]. split.
  - intros Habs. revert rays Hk.
    induction dts as [| d dts IH]; intros rays Hk; [exact Hk |].
    rewrite legacy_steps_cons. unfold Legacy.Simulation.Update.
    apply IH. cbn [Legacy.Simulation.blackHoles Legacy.Simulation.lightRays].
    rewrite legacy_update_rays_map, nth_error_map, Hk. cbn [option_map].
    now rewrite Habs.
  - intros Habs. unfold Legacy.Simulation.Update.
    cbn [Legacy.Simulation.blackHoles Legacy.Simulation.lightRays].
    rewrite legacy_update_rays_map, nth_error_map, Hk. cbn [option_map].
    rewrite Habs. eexists. split; [reflexivity |]. split; reflexivity.
Qed.

Section LegacyWorldRuns.
Import Binary64 LegacyRuns.

Lemma absorption_ignores_the_order_of_black_holes_witness :
  Permutation [near_hole; far_hole] [far_hole; near_hole]
  /\ Legacy.Simulation.update_rays 100%float [near_hole; far_hole] [caught; free]
     = Legacy.Simulation.update_rays 100%float [far_hole; near_hole] [caught; free].
Proof.
  assert (Hperm : Permutation [near_hole; far_hole] [far_hole; near_hole])
    by apply perm_swap.
  split; [exact Hperm |].
  exact (proj1 (proj2 (absorption_ignores_the_order_of_black_holes 100%float
                         [near_hole; far_hole] [far_hole; near_hole]
                         [caught; free] caught)) Hperm).
Defined.

Lemma absorbed_ray_is_left_as_it_is_witness :
  nth_error [free; caught] 1 = Some caught
  /\ Legacy.Simulation.absorbed [far_hole; near_hole] caught = true
  /\ nth_error (Legacy.Simulation.lightRays
                  (Legacy.Simulation.steps [100; 100]%float
                     (Legacy.Simulation.mk [far_hole; near_hole] [free; caught]))) 1
     = Some caught.
Proof.
  assert (Hk : nth_error [free; caught] 1 = Some caught) by reflexivity.
  assert (Habs : Legacy.Simulation.absorbed [far_hole; near_hole] caught = true)
    by (vm_compute; reflexivity).
  split; [exact Hk |]. split; [exact Habs |].
  exact (proj1 (proj2 (absorbed_ray_is_left_as_it_is [100; 100]%float 100%float
                         [far_hole; near_hole] [free; caught] 1 caught Hk)) Habs).
Defined.
End LegacyWorldRuns.

(** ** Straight lines *)

Lemma exact_VIS_SCALE : @VIS_SCALE R Exact.arith = (6 / 10 ^ 9)%R.
Proof.
  cbv [VIS_SCALE dec Exact.arith Exact.decR powerRZ].
  change (Pos.to_nat 9) with 9%nat. reflexivity.
Qed.

Lemma legacy_run_cons {F : Type} `{Arith F} (dt : F) (dts : list F)
      (l : Legacy.LightRay.t F) :
  Legacy.LightRay.run (dt :: dts) l
  = Legacy.LightRay.run dts (Legacy.LightRay.Update dt l).
Proof. reflexivity. Qed.

(** X18. In exact arithmetic a ray of the straight-line version moves
    along its direction by [c·VIS_SCALE] pixels per unit of [dt]: after
    any run of updates its position is the initial one plus the direction
    times [c · (sum of the time steps) · VIS_SCALE], its direction is
    unchanged and its path has one more point per update. *)
Theorem straight_line_motion (dts : list R) (l : Legacy.LightRay.t R) :
  let travelled := (299792458 * fold_right Rplus 0 dts * (6 / 10 ^ 9))%R in
  let l' := @Legacy.LightRay.run R Exact.arith dts l in
  x (Legacy.LightRay.pos l')
  = (x (Legacy.LightRay.pos l) + x (Legacy.LightRay.dir l) * travelled)%R
  /\ y (Legacy.LightRay.pos l')
     = (y (Legacy.LightRay.pos l) + y (Legacy.LightRay.dir l) * travelled)%R
  /\ Legacy.LightRay.dir l' = Legacy.LightRay.dir l
  /\ length (Legacy.LightRay.path l') = length (Legacy.LightRay.path l) + length dts.
Proof.
  cbv zeta. revert l. induction dts as [| dt dts IH]; intros l.
  - cbn [fold_right Legacy.LightRay.run fold_left length].
    repeat split; first [ring | lia | reflexivity].
  - rewrite legacy_run_cons.
    destruct (IH (@Legacy.LightRay.Update R Exact.arith dt l)) as (Hx & Hy & Hd & Hp).
    rewrite Hx, Hy, Hd, Hp.
    unfold Legacy.LightRay.Update.
    cbn [Legacy.LightRay.pos Legacy.LightRay.dir Legacy.LightRay.path x y
         fold_right length].
    rewrite exact_c, exact_VIS_SCALE.
    cbv [addf mulf add mul to_float Exact.arith].
    rewrite length_app. cbn [length].
    repeat split; first [ring | lia | reflexivity].
Qed.
